(** * cirq_ionq.sampler: the IonQ [Sampler] adapter

    A shallow embedding of [cirq-ionq/cirq_ionq/sampler.py].  The adapter owns
    no algorithm of its own: it expands a sweep, asks the service for one job
    per sweep point, waits for every job and converts each result.  What can
    be verified about it is therefore the shape of its interaction with its
    collaborators: how many calls, in which order, with which arguments, and
    what happens to their results and to their exceptions.

    The collaborators are interfaces here: [Framework] for what comes from
    [cirq] and [Backend] for the service, its jobs and the result classes.
    [run_sweep] is written once against them, as a computation in a small
    monad that threads the Python store, logs every call that crosses the
    adapter's boundary and propagates exceptions. *)

From Stdlib Require Import ZArith.
From stdpp Require Import base option list gmap strings.

Open Scope Z_scope.

(** ** Python calls and their outcomes *)

(** A call either returns a value or raises an exception. *)
Inductive Outcome (E A : Type) : Type :=
| Returned (a : A)
| Raised (e : E).
Arguments Returned {E A} a.
Arguments Raised {E A} e.

Definition is_Returned {E A} (o : Outcome E A) : bool :=
  match o with Returned _ => true | Raised _ => false end.

Definition raised {E A} (o : Outcome E A) : option E :=
  match o with Returned _ => None | Raised e => Some e end.

(** [cirq.RANDOM_STATE_OR_SEED_LIKE], as the docstring of [Sampler.__init__]
    reads it: [None] (stands for the module [np.random]), an [int] (stands
    for [np.random.RandomState(int)]), or an object similar to [np.random],
    which is a generator with a state of its own and is known by reference. *)
Inductive Seed : Type :=
| SeedNone
| SeedInt (n : Z)
| SeedModule (g : positive).

(** ** The collaborators *)

(** What the adapter uses of [cirq]. *)
Class Framework : Type := {
  Circuit : Type;       (* cirq.AbstractCircuit *)
  Sweepable : Type;     (* cirq.Sweepable *)
  Resolver : Type;      (* cirq.ParamResolver *)
  CirqResult : Type;    (* cirq.Result *)
  Exc : Type;           (* Python exceptions *)
  AttributeError : Exc;
  to_resolvers : Sweepable -> Outcome Exc (list Resolver);
  resolve_parameters : Circuit -> Resolver -> Outcome Exc Circuit;
}.

(** What the adapter uses of the service and of the objects the service
    hands out.  A call to one of them may read and change the world outside
    the adapter (the remote queue, the devices, random generators), so it
    takes a [World] and returns the next one.  [to_cirq_result] is the method
    the result classes define; its keyword argument [seed] is either left
    out ([None] below) or given ([Some s], where [s] may itself be Python's
    [None], that is [SeedNone]). *)
Class Backend `{Framework} : Type := {
  Service : Type;       (* cirq_ionq.Service *)
  Job : Type;           (* cirq_ionq.Job *)
  JobResult : Type;     (* what job.results() returns *)
  World : Type;         (* the state outside the adapter *)
  create_job :
    Service -> Circuit -> Z -> option string -> World -> Outcome Exc Job * World;
  results : Job -> World -> Outcome Exc JobResult * World;
  isinstance_QPUResult : JobResult -> bool;
  to_cirq_result :
    JobResult -> Resolver -> option Seed -> World ->
    Outcome Exc CirqResult * World;
}.

Section Adapter.
Context `{Backend}.

(** ** The store *)

(** A [Sampler] object: the three attributes [__init__] sets. *)
Record Sampler : Type := {
  _service : Service;
  _target : option string;
  _seed : Seed;
}.

(** The Python store as the adapter sees it: the sampler objects, by
    reference, and the world outside. *)
Record State : Type := {
  heap : gmap positive Sampler;
  world : World;
}.

(** ** The log of boundary calls

    One event per call that leaves the adapter, with the arguments passed
    and what the call gave back. *)
Inductive Event : Type :=
| EvCreateJob (service : Service) (circuit : Circuit) (repetitions : Z)
    (target : option string) (ret : Outcome Exc Job)
| EvResults (job : Job) (ret : Outcome Exc JobResult)
| EvToCirqResult (result : JobResult) (params : Resolver)
    (seed : option Seed) (ret : Outcome Exc CirqResult).

(** ** The monad: store, log, exceptions *)

Record Run (A : Type) : Type := {
  outcome : Outcome Exc A;
  final : State;
  trace : list Event;
}.
Arguments outcome {A} _.
Arguments final {A} _.
Arguments trace {A} _.

Definition M (A : Type) : Type := State -> Run A.

Definition ret {A} (a : A) : M A :=
  fun st => {| outcome := Returned a; final := st; trace := [] |}.

Definition bind {A B} (m : M A) (k : A -> M B) : M B :=
  fun st =>
    let r := m st in
    match outcome r with
    | Returned a =>
        let r' := k a (final r) in
        {| outcome := outcome r'; final := final r';
           trace := trace r ++ trace r' |}
    | Raised e =>
        {| outcome := Raised e; final := final r; trace := trace r |}
    end.

(** A call of a function of the framework, which touches nothing. *)
Definition pure {A} (o : Outcome Exc A) : M A :=
  fun st => {| outcome := o; final := st; trace := [] |}.

(** [self.<field>]. *)
Definition getattr {A} (self : positive) (field : Sampler -> A) : M A :=
  fun st =>
    match heap st !! self with
    | Some obj => {| outcome := Returned (field obj); final := st; trace := [] |}
    | None => {| outcome := Raised AttributeError; final := st; trace := [] |}
    end.

(** [service.create_job(circuit=..., repetitions=..., target=...)]. *)
Definition call_create_job (service : Service) (circuit : Circuit)
    (repetitions : Z) (target : option string) : M Job :=
  fun st =>
    let r := create_job service circuit repetitions target (world st) in
    {| outcome := r.1;
       final := {| heap := heap st; world := r.2 |};
       trace := [EvCreateJob service circuit repetitions target r.1] |}.

(** [job.results()]. *)
Definition call_results (job : Job) : M JobResult :=
  fun st =>
    let r := results job (world st) in
    {| outcome := r.1;
       final := {| heap := heap st; world := r.2 |};
       trace := [EvResults job r.1] |}.

(** [result.to_cirq_result(params=...)] and
    [result.to_cirq_result(params=..., seed=...)]. *)
Definition call_to_cirq_result (result : JobResult) (params : Resolver)
    (seed : option Seed) : M CirqResult :=
  fun st =>
    let r := to_cirq_result result params seed (world st) in
    {| outcome := r.1;
       final := {| heap := heap st; world := r.2 |};
       trace := [EvToCirqResult result params seed r.1] |}.

(** A list comprehension [[f(x) for x in xs]]. *)
Fixpoint comprehension {A B} (f : A -> M B) (xs : list A) : M (list B) :=
  match xs with
  | [] => ret []
  | x :: xs' =>
      bind (f x) (fun y =>
      bind (comprehension f xs') (fun ys =>
      ret (y :: ys)))
  end.

(** ** [Sampler.__init__] (lines 43-63) *)

(** The three assignments to [self]. *)
Definition Sampler__init__ (self : positive) (service : Service)
    (target : option string) (seed : Seed) : M unit :=
  fun st =>
    {| outcome := Returned tt;
       final :=
         {| heap :=
              <[self := {| _service := service; _target := target;
                           _seed := seed |}]> (heap st);
            world := world st |};
       trace := [] |}.

(** ** [Sampler.run_sweep] (lines 65-96) *)

(** Lines 82-86: the job of one sweep point.  Python evaluates the callee
    [self._service.create_job] first, then the arguments from left to
    right. *)
Definition submit (self : positive) (program : Circuit) (repetitions : Z)
    (resolver : Resolver) : M Job :=
  bind (getattr self _service) (fun service =>
  bind (pure (resolve_parameters program resolver)) (fun circuit =>
  bind (getattr self _target) (fun target =>
  call_create_job service circuit repetitions target))).

(** Lines 92-95: the conversion of one result. *)
Definition convert (self : positive) (result : JobResult)
    (params : Resolver) : M CirqResult :=
  if isinstance_QPUResult result then
    call_to_cirq_result result params None
  else
    bind (getattr self _seed) (fun seed =>
    call_to_cirq_result result params (Some seed)).

(** Lines 90-95: the loop over [zip(job_results, resolvers)], appending to
    [cirq_results]. *)
Fixpoint convert_loop (self : positive) (pairs : list (JobResult * Resolver))
    (cirq_results : list CirqResult) : M (list CirqResult) :=
  match pairs with
  | [] => ret cirq_results
  | (result, params) :: pairs' =>
      bind (convert self result params) (fun c =>
      convert_loop self pairs' (cirq_results ++ [c]))
  end.

Definition run_sweep (self : positive) (program : Circuit)
    (params : Sweepable) (repetitions : Z) : M (list CirqResult) :=
  bind (pure (to_resolvers params)) (fun resolvers =>
  bind (comprehension (submit self program repetitions) resolvers) (fun jobs =>
  bind (comprehension call_results jobs) (fun job_results =>
  bind (convert_loop self (zip job_results resolvers) []) (fun cirq_results =>
  ret cirq_results)))).

(** ** Reading a log *)

(** The exception a logged call raised, if it raised one. *)
Definition failure (ev : Event) : option Exc :=
  match ev with
  | EvCreateJob _ _ _ _ r => raised r
  | EvResults _ r => raised r
  | EvToCirqResult _ _ _ r => raised r
  end.

(** The same, for the two calls that go to the service: job creation and
    result retrieval. *)
Definition service_failure (ev : Event) : option Exc :=
  match ev with
  | EvCreateJob _ _ _ _ r => raised r
  | EvResults _ r => raised r
  | EvToCirqResult _ _ _ _ => None
  end.

Definition is_create (ev : Event) : bool :=
  match ev with EvCreateJob _ _ _ _ _ => true | _ => false end.

Definition is_retrieval (ev : Event) : bool :=
  match ev with EvResults _ _ => true | _ => false end.

Definition is_conversion (ev : Event) : bool :=
  match ev with EvToCirqResult _ _ _ _ => true | _ => false end.

(** The arguments of a call to [create_job], whatever it gave back. *)
Definition create_call (ev : Event)
    : option (Service * Circuit * Z * option string) :=
  match ev with
  | EvCreateJob service circuit repetitions target _ =>
      Some (service, circuit, repetitions, target)
  | _ => None
  end.

Definition create_calls (tr : list Event)
    : list (Service * Circuit * Z * option string) :=
  omap create_call tr.

(** A job creation that returned: the circuit sent and the job obtained. *)
Definition creation (ev : Event) : option (Circuit * Job) :=
  match ev with
  | EvCreateJob _ circuit _ _ (Returned job) => Some (circuit, job)
  | _ => None
  end.

Definition creations (tr : list Event) : list (Circuit * Job) :=
  omap creation tr.

(** The job whose result a call awaits, whatever the call gave back. *)
Definition awaited_job (ev : Event) : option Job :=
  match ev with EvResults job _ => Some job | _ => None end.

Definition awaited (tr : list Event) : list Job := omap awaited_job tr.

(** A logged call is not the retrieval of a result that is no instance of
    [QPUResult]. *)
Definition retrieved_QPUResult (ev : Event) : bool :=
  match ev with
  | EvResults _ (Returned result) => isinstance_QPUResult result
  | _ => true
  end.

(** The keyword argument [seed] that line 93 or line 95 passes for a
    result. *)
Definition seed_kwarg (obj : Sampler) (result : JobResult) : option Seed :=
  if isinstance_QPUResult result then None else Some (_seed obj).

(** The calls to [create_job] a sweep asks for: one per resolver, in order,
    up to the first resolver at which [resolve_parameters] raises. *)
Fixpoint planned_calls (obj : Sampler) (program : Circuit) (repetitions : Z)
    (resolvers : list Resolver)
    : list (Service * Circuit * Z * option string) :=
  match resolvers with
  | [] => []
  | resolver :: resolvers' =>
      match resolve_parameters program resolver with
      | Returned circuit =>
          (_service obj, circuit, repetitions, _target obj)
            :: planned_calls obj program repetitions resolvers'
      | Raised _ => []
      end
  end.

(** ** Two properties of computations *)

(** A computation that leaves the sampler objects as they are. *)
Definition keeps_heap {A} (m : M A) : Prop :=
  forall st, heap (final (m st)) = heap st.

(** A computation that raises what a call it logged raised. *)
Definition propagates {A} (m : M A) : Prop :=
  forall st ev e,
    ev ∈ trace (m st) -> failure ev = Some e -> outcome (m st) = Raised e.

(** A computation that makes no call after a call that raised. *)
Definition stops {A} (m : M A) : Prop :=
  forall st i ev e,
    trace (m st) !! i = Some ev -> failure ev = Some e ->
    S i = length (trace (m st)).

End Adapter.

Arguments outcome {_ _ A} _.
Arguments final {_ _ A} _.
Arguments trace {_ _ A} _.


(** ** Stores that differ in the seed

    Two stores are alike for the object [self] when the world outside is the
    same and [self] has the same service and the same target in both (or is
    missing in both); two runs agree when they return or raise the same, log
    the same calls and end in stores that are alike. *)

Section Alike.
Context `{Backend}.
Context (self : positive).

Definition alike (st1 st2 : State) : Prop :=
  world st1 = world st2 /\
  _service <$> heap st1 !! self = _service <$> heap st2 !! self /\
  _target <$> heap st1 !! self = _target <$> heap st2 !! self.

Definition agree {A} (r1 r2 : Run A) : Prop :=
  outcome r1 = outcome r2 /\
  trace r1 = trace r2 /\
  alike (final r1) (final r2).

End Alike.

(** ** Parameter resolution *)

Module ParamResolution.

(** Modelled from the spec: a parameter slot of a circuit, which holds a
    free symbol or a concrete value (cirq-core is not among the sources; an
    integer stands for the value). *)
Inductive Slot : Type :=
| Symbol (name : string)
| Value (v : Z).

(** Modelled from the spec: an operation of a circuit, with a gate, the
    qubits it acts on and its parameter slots. *)
Record Operation : Type := {
  gate : string;
  qubits : list nat;
  slots : list Slot;
}.

(** Modelled from the spec: a circuit, the representation of a quantum
    program; its operations, in order. *)
Definition circuit : Type := list Operation.

(** Modelled from the spec: a resolver, a mapping from symbolic parameter
    name to concrete value. *)
Abbreviation resolver := (gmap string Z).

(** Modelled from the spec: the resolution of one slot.  A symbol the
    resolver binds becomes the bound value; a symbol it does not bind and a
    value stay. *)
Definition resolve_slot (r : resolver) (s : Slot) : Slot :=
  match s with
  | Symbol name =>
      match r !! name with
      | Some v => Value v
      | None => Symbol name
      end
  | Value v => Value v
  end.

(** Modelled from the spec: the resolution of the slots of an operation. *)
Definition resolve_operation (r : resolver) (op : Operation) : Operation :=
  {| gate := gate op; qubits := qubits op;
     slots := map (resolve_slot r) (slots op) |}.

(** Modelled from the spec: [cirq.resolve_parameters], of cirq-core, which
    is not among the sources.  The spec has a circuit with parameter slots
    that a resolver, a mapping from symbolic parameter name to concrete
    value, resolves before submission: every slot that holds a symbol the
    resolver binds gets the bound value, and nothing else changes. *)
Definition resolve (program : circuit) (r : resolver) : circuit :=
  map (resolve_operation r) program.

(** [cirq], with circuits and resolvers as above and the rest left open. *)
Definition framework (sweepable result exc : Type) (attribute_error : exc)
    (expand : sweepable -> Outcome exc (list resolver)) : Framework :=
  {| Circuit := circuit;
     Sweepable := sweepable;
     Resolver := resolver;
     CirqResult := result;
     Exc := exc;
     AttributeError := attribute_error;
     to_resolvers := expand;
     resolve_parameters := fun program r => Returned (resolve program r) |}.

End ParamResolution.

(** ** The result classes *)

Module IonQResults.

Section Results.
Context `{Framework}.
Context (QPUData SimData Foreign RngState Remote : Type).

(** What [job.results()] may give back: an instance of [results.QPUResult],
    an instance of [results.SimulatorResult], or any other object. *)
Inductive Result : Type :=
| QPUResult (q : QPUData)
| SimulatorResult (s : SimData)
| ForeignResult (o : Foreign).

Definition isinstance_QPU (result : Result) : bool :=
  match result with QPUResult _ => true | _ => false end.

(** The world outside the adapter: the state of the module [np.random],
    the generators that exist as objects, and the remote service. *)
Record RngWorld : Type := {
  np_random : RngState;
  generators : gmap positive RngState;
  remote : Remote;
}.

Context (RandomState : Z -> RngState).
Context (qpu_counts : QPUData -> Resolver -> Outcome Exc CirqResult).
Context (sample : SimData -> Resolver -> RngState ->
                  Outcome Exc CirqResult * RngState).
Context (foreign_to_cirq_result :
           Foreign -> Resolver -> option Seed -> RngWorld ->
           Outcome Exc CirqResult * RngWorld).

(** Modelled from the spec: [SimulatorResult.to_cirq_result], of
    cirq_ionq/results.py, which is not among the sources.  The spec has the
    simulator variant need a seed to resample its outcomes, an unset seed
    source meaning the ambient randomness; the docstring of
    [Sampler.__init__] adds that an [int] stands for a generator made from
    it on the spot and anything else for a generator object.  Sampling draws
    from the generator the seed stands for and leaves that generator in its
    next state. *)
Definition simulator_to_cirq_result (s : SimData) (params : Resolver)
    (seed : Seed) (w : RngWorld) : Outcome Exc CirqResult * RngWorld :=
  match seed with
  | SeedNone =>
      let r := sample s params (np_random w) in
      (r.1, {| np_random := r.2; generators := generators w;
               remote := remote w |})
  | SeedInt n =>
      let r := sample s params (RandomState n) in
      (r.1, w)
  | SeedModule g =>
      match generators w !! g with
      | Some state =>
          let r := sample s params state in
          (r.1, {| np_random := np_random w;
                   generators := <[g := r.2]> (generators w);
                   remote := remote w |})
      | None => (Raised AttributeError, w)
      end
  end.

(** Modelled from the spec: the method [to_cirq_result] of the result
    classes of cirq_ionq/results.py, which is not among the sources.  The
    QPU variant holds measured outcomes and needs no randomness to convert;
    the simulator variant is converted as above, its keyword argument [seed]
    being [None] when it is left out; any other object answers for itself. *)
Definition result_to_cirq_result (result : Result) (params : Resolver)
    (seed : option Seed) (w : RngWorld) : Outcome Exc CirqResult * RngWorld :=
  match result with
  | QPUResult q => (qpu_counts q params, w)
  | SimulatorResult s =>
      simulator_to_cirq_result s params (default SeedNone seed) w
  | ForeignResult o => foreign_to_cirq_result o params seed w
  end.

(** The service and its objects, with the result classes as above and the
    service itself left open. *)
Definition backend (service job : Type)
    (create :
       service -> Circuit -> Z -> option string -> RngWorld ->
       Outcome Exc job * RngWorld)
    (wait : job -> RngWorld -> Outcome Exc Result * RngWorld) : Backend :=
  {| Service := service;
     Job := job;
     JobResult := Result;
     World := RngWorld;
     create_job := create;
     results := wait;
     isinstance_QPUResult := isinstance_QPU;
     to_cirq_result := result_to_cirq_result |}.

End Results.

Arguments QPUResult {QPUData SimData Foreign} q.
Arguments SimulatorResult {QPUData SimData Foreign} s.
Arguments ForeignResult {QPUData SimData Foreign} o.
Arguments Build_RngWorld {RngState Remote} _ _ _.
Arguments np_random {RngState Remote} _.
Arguments generators {RngState Remote} _.
Arguments remote {RngState Remote} _.

End IonQResults.

(** ** A test double

    A service that runs on paper: job identifiers count up from zero, a job
    on the target [qpu] measures 1 at every shot (the circuit of the docstring of
    [Sampler]), a job on any other target comes back as a simulator result
    over the outcomes 0 and 1, and the service can be told to fail at a
    given job.  The theorems below are run on it. *)

Module Mock.
Import ParamResolution IonQResults.

(** What a converted result holds: the parameters it was run at and one
    outcome per shot. *)
Record Measured : Type := {
  at_params : resolver;
  shots : list Z;
}.

(** A sweepable is a list of resolvers, given as such. *)
#[export] Instance cirq : Framework :=
  framework (list resolver) Measured string "AttributeError" Returned.

(** A simulator result: the outcomes to draw from and the number of shots. *)
Record Distribution : Type := {
  support : list Z;
  repetitions : nat;
}.

(** A linear congruential generator stands for numpy's generators. *)
Definition next (g : Z) : Z := (g * 1103515245 + 12345) mod 2147483648.

Fixpoint draw (n : nat) (support : list Z) (g : Z) : list Z * Z :=
  match n with
  | O => ([], g)
  | S n' =>
      let g' := next g in
      let x :=
        nth (Z.to_nat ((g' / 65536) mod Z.of_nat (length support))) support 0 in
      let rest := draw n' support g' in
      (x :: rest.1, rest.2)
  end.

Definition sample (d : Distribution) (params : resolver) (g : Z)
    : Outcome string Measured * Z :=
  let r := draw (repetitions d) (support d) g in
  (Returned {| at_params := params; shots := r.1 |}, r.2).

Definition qpu_counts (q : list Z) (params : resolver)
    : Outcome string Measured :=
  match q with
  | [] => Raised "ValueError"
  | _ => Returned {| at_params := params; shots := q |}
  end.

(** The remote side: the jobs submitted so far and the planned failures. *)
Record Remote : Type := {
  submitted : list (circuit * Z * option string);
  create_fails_at : option nat;
  results_fail_at : option nat;
}.

Definition MockResult : Type := Result (list Z) Distribution (list Z).
Definition MockWorld : Type := RngWorld Z Remote.

(** An object that is no result class of cirq_ionq and has a method
    [to_cirq_result] all the same: a bare list of shots. *)
Definition shots_to_cirq_result (o : list Z) (params : resolver)
    (seed : option Seed) (w : MockWorld) : Outcome string Measured * MockWorld :=
  (Returned {| at_params := params; shots := o |}, w).

Definition create (service : string) (c : circuit) (n : Z)
    (target : option string) (w : MockWorld)
    : Outcome string nat * MockWorld :=
  let k := length (submitted (remote w)) in
  if decide (create_fails_at (remote w) = Some k) then
    (Raised "IonQException", w)
  else
    (Returned k,
     {| np_random := np_random w;
        generators := generators w;
        remote :=
          {| submitted := submitted (remote w) ++ [(c, n, target)];
             create_fails_at := create_fails_at (remote w);
             results_fail_at := results_fail_at (remote w) |} |}).

Definition wait (job : nat) (w : MockWorld)
    : Outcome string MockResult * MockWorld :=
  if decide (results_fail_at (remote w) = Some job) then
    (Raised "IonQException", w)
  else
    match submitted (remote w) !! job with
    | Some (_, n, target) =>
        if decide (target = Some "qpu") then
          (Returned (QPUResult (replicate (Z.to_nat n) 1)), w)
        else if decide (target = Some "shots") then
          (Returned (ForeignResult (replicate (Z.to_nat n) 0)), w)
        else
          (Returned
             (SimulatorResult
                {| support := [0; 1]; repetitions := Z.to_nat n |}), w)
    | None => (Raised "IonQNotFoundException", w)
    end.

#[export] Instance ionq : Backend :=
  backend (list Z) Distribution (list Z) Z Remote
    (fun n => n mod 2147483648) qpu_counts sample shots_to_cirq_result
    string nat create wait.

(** A circuit with one free parameter. *)
Definition program : circuit :=
  [ {| gate := "X"; qubits := [0%nat]; slots := [Symbol "t"] |};
    {| gate := "measure"; qubits := [0%nat]; slots := [] |} ].

(** A sweep of three points. *)
Definition sweep : list resolver :=
  [ {["t" := 0]}; {["t" := 1]}; {["t" := 2]} ].

(** The world before any call. *)
Definition world0 (create_fails results_fail : option nat) : MockWorld :=
  {| np_random := 42;
     generators := {[ 7%positive := 5 ]};
     remote := {| submitted := []; create_fails_at := create_fails;
                  results_fail_at := results_fail |} |}.

(** The store after [Sampler("key", target, seed)] made the object 1. *)
Definition store (target : option string) (seed : Seed)
    (create_fails results_fail : option nat) : State :=
  final (Sampler__init__ 1 "key" target seed
           {| heap := ∅; world := world0 create_fails results_fail |}).

(** What a conversion drew, if it returned. *)
Definition drawn (o : Outcome string Measured) : option (list Z) :=
  match o with
  | Returned m => Some (shots m)
  | Raised _ => None
  end.

End Mock.

(** ** The behaviours of a sweep

    What a run of [run_sweep] may log and give back, whatever the service
    answers: the three loops as relations between the list looped over, the
    calls logged and the outcome.  [obj] is the sampler, as [__init__] left
    it. *)

Definition prepend {E A} (a : A) (o : Outcome E (list A)) : Outcome E (list A) :=
  match o with
  | Returned l => Returned (a :: l)
  | Raised e => Raised e
  end.

Definition extend {E A} (l : list A) (o : Outcome E (list A))
    : Outcome E (list A) :=
  match o with
  | Returned l' => Returned (l ++ l')
  | Raised e => Raised e
  end.

Section Behaviours.
Context `{Backend}.
Context (obj : Sampler) (program : Circuit) (repetitions : Z).

(** Lines 81-88: the jobs are created in order; the loop stops at the first
    resolver the circuit cannot be resolved with and at the first job the
    service refuses. *)
Inductive Submitted
    : list Resolver -> list Event -> Outcome Exc (list Job) -> Prop :=
| Submitted_nil :
    Submitted [] [] (Returned [])
| Submitted_unresolved resolver resolvers e :
    resolve_parameters program resolver = Raised e ->
    Submitted (resolver :: resolvers) [] (Raised e)
| Submitted_refused resolver resolvers circuit e :
    resolve_parameters program resolver = Returned circuit ->
    Submitted (resolver :: resolvers)
      [EvCreateJob (_service obj) circuit repetitions (_target obj) (Raised e)]
      (Raised e)
| Submitted_accepted resolver resolvers circuit job tr o :
    resolve_parameters program resolver = Returned circuit ->
    Submitted resolvers tr o ->
    Submitted (resolver :: resolvers)
      (EvCreateJob (_service obj) circuit repetitions (_target obj)
         (Returned job) :: tr)
      (prepend job o).

(** Line 89: the results are awaited in order; the loop stops at the first
    job whose result cannot be had. *)
Inductive Awaited
    : list Job -> list Event -> Outcome Exc (list JobResult) -> Prop :=
| Awaited_nil :
    Awaited [] [] (Returned [])
| Awaited_failed job jobs e :
    Awaited (job :: jobs) [EvResults job (Raised e)] (Raised e)
| Awaited_done job jobs result tr o :
    Awaited jobs tr o ->
    Awaited (job :: jobs) (EvResults job (Returned result) :: tr)
      (prepend result o).

(** Lines 90-95: the results are converted in order; the loop stops at the
    first conversion that raises. *)
Inductive Converted
    : list (JobResult * Resolver) -> list Event ->
      Outcome Exc (list CirqResult) -> Prop :=
| Converted_nil :
    Converted [] [] (Returned [])
| Converted_failed result resolver pairs e :
    Converted ((result, resolver) :: pairs)
      [EvToCirqResult result resolver (seed_kwarg obj result) (Raised e)]
      (Raised e)
| Converted_done result resolver pairs c tr o :
    Converted pairs tr o ->
    Converted ((result, resolver) :: pairs)
      (EvToCirqResult result resolver (seed_kwarg obj result) (Returned c)
         :: tr)
      (prepend c o).

(** Lines 80-96: the three loops one after the other. *)
Inductive Swept (resolvers : list Resolver)
    : list Event -> Outcome Exc (list CirqResult) -> Prop :=
| Swept_submitting tr e :
    Submitted resolvers tr (Raised e) ->
    Swept resolvers tr (Raised e)
| Swept_awaiting tr1 jobs tr2 e :
    Submitted resolvers tr1 (Returned jobs) ->
    Awaited jobs tr2 (Raised e) ->
    Swept resolvers (tr1 ++ tr2) (Raised e)
| Swept_converting tr1 jobs tr2 job_results tr3 o :
    Submitted resolvers tr1 (Returned jobs) ->
    Awaited jobs tr2 (Returned job_results) ->
    Converted (zip job_results resolvers) tr3 o ->
    Swept resolvers (tr1 ++ tr2 ++ tr3) o.

End Behaviours.

(** ** More ways to read a log and a run *)

Section Replaying.
Context `{Backend}.

(** The arguments of a call to [to_cirq_result], whatever it gave back. *)
Definition conversion_call (ev : Event)
    : option (JobResult * Resolver * option Seed) :=
  match ev with
  | EvToCirqResult result params seed _ => Some (result, params, seed)
  | _ => None
  end.

Definition conversion_calls (tr : list Event)
    : list (JobResult * Resolver * option Seed) :=
  omap conversion_call tr.

(** The result a call to [results] returned. *)
Definition retrieved_result (ev : Event) : option JobResult :=
  match ev with
  | EvResults _ (Returned result) => Some result
  | _ => None
  end.

Definition retrieved (tr : list Event) : list JobResult :=
  omap retrieved_result tr.

(** The calls that went to the service: all but the conversions. *)
Definition service_calls (tr : list Event) : list Event :=
  List.filter (fun ev => negb (is_conversion ev)) tr.

(** A computation all of whose logged calls are of one kind. *)
Definition emits (kind : Event -> bool) {A} (m : M A) : Prop :=
  forall st, Forall (fun ev => kind ev = true) (trace (m st)).

End Replaying.

(** * Properties of the adapter *)

Section AdapterFacts.
Context `{Backend}.

Implicit Types (st : State) (self : positive) (obj : Sampler).
Implicit Types (program : Circuit) (params : Sweepable) (repetitions : Z).
Implicit Types (tr : list Event) (ev : Event) (e : Exc).

(** ** The monad *)

Lemma bind_returned {A B} (m : M A) (k : A -> M B) st a :
  outcome (m st) = Returned a ->
  bind m k st =
    {| outcome := outcome (k a (final (m st)));
       final := final (k a (final (m st)));
       trace := trace (m st) ++ trace (k a (final (m st))) |}.
Proof. intros Hm. unfold bind. rewrite Hm. reflexivity. Qed.

Lemma bind_raised {A B} (m : M A) (k : A -> M B) st e :
  outcome (m st) = Raised e ->
  bind m k st =
    {| outcome := Raised e; final := final (m st); trace := trace (m st) |}.
Proof. intros Hm. unfold bind. rewrite Hm. reflexivity. Qed.

Lemma bind_ret {A} (m : M A) st : bind m (fun a => ret a) st = m st.
Proof.
  unfold bind, ret. destruct (m st) as [[a|e] st' tr]; cbn;
    rewrite ?app_nil_r; reflexivity.
Qed.

Lemma getattr_some {A} self (field : Sampler -> A) st obj :
  heap st !! self = Some obj ->
  getattr self field st =
    {| outcome := Returned (field obj); final := st; trace := [] |}.
Proof. intros Hobj. unfold getattr. rewrite Hobj. reflexivity. Qed.

Lemma getattr_none {A} self (field : Sampler -> A) st :
  heap st !! self = None ->
  getattr self field st =
    {| outcome := Raised AttributeError; final := st; trace := [] |}.
Proof. intros Hobj. unfold getattr. rewrite Hobj. reflexivity. Qed.

(** ** The frame: no computation of the adapter writes to the heap *)

Lemma keeps_heap_ret {A} (a : A) : keeps_heap (ret a).
Proof. intros st. reflexivity. Qed.

Lemma keeps_heap_pure {A} (o : Outcome Exc A) : keeps_heap (pure o).
Proof. intros st. reflexivity. Qed.

Lemma keeps_heap_getattr {A} self (field : Sampler -> A) :
  keeps_heap (getattr self field).
Proof. intros st. unfold getattr. destruct (heap st !! self); reflexivity. Qed.

Lemma keeps_heap_create service (circuit : Circuit) repetitions target :
  keeps_heap (call_create_job service circuit repetitions target).
Proof. intros st. reflexivity. Qed.

Lemma keeps_heap_results job : keeps_heap (call_results job).
Proof. intros st. reflexivity. Qed.

Lemma keeps_heap_to_cirq_result result (resolver : Resolver) seed :
  keeps_heap (call_to_cirq_result result resolver seed).
Proof. intros st. reflexivity. Qed.

Lemma keeps_heap_bind {A B} (m : M A) (k : A -> M B) :
  keeps_heap m -> (forall a, keeps_heap (k a)) -> keeps_heap (bind m k).
Proof.
  intros Hm Hk st. unfold bind.
  destruct (outcome (m st)) as [a|e]; cbn.
  - rewrite Hk. apply Hm.
  - apply Hm.
Qed.

Lemma keeps_heap_comprehension {A B} (f : A -> M B) xs :
  (forall x, keeps_heap (f x)) -> keeps_heap (comprehension f xs).
Proof.
  intros Hf. induction xs as [|x xs IH]; cbn [comprehension].
  - apply keeps_heap_ret.
  - apply keeps_heap_bind; [apply Hf|]. intros y.
    apply keeps_heap_bind; [apply IH|]. intros ys. apply keeps_heap_ret.
Qed.

Create HintDb frame discriminated.
Hint Resolve keeps_heap_ret keeps_heap_pure keeps_heap_getattr
  keeps_heap_create keeps_heap_results keeps_heap_to_cirq_result : frame.

Lemma keeps_heap_submit self program repetitions (resolver : Resolver) :
  keeps_heap (submit self program repetitions resolver).
Proof.
  unfold submit.
  repeat (apply keeps_heap_bind; [auto with frame|intros ?]).
  auto with frame.
Qed.

Lemma keeps_heap_convert self result (resolver : Resolver) :
  keeps_heap (convert self result resolver).
Proof.
  unfold convert. destruct (isinstance_QPUResult result); [auto with frame|].
  apply keeps_heap_bind; [auto with frame|intros seed]. auto with frame.
Qed.



(** ** Exceptions: a call that raised is the last call, and what it raised
    is what the computation raises *)

Lemma propagates_silent {A} (m : M A) :
  (forall st, trace (m st) = []) -> propagates m.
Proof. intros Hm st ev e Hev. rewrite Hm in Hev. inversion Hev. Qed.

Lemma propagates_call {A} (m : M A) :
  (forall st, exists ev,
      trace (m st) = [ev] /\ failure ev = raised (outcome (m st))) ->
  propagates m.
Proof.
  intros Hm st ev e Hev Hfail.
  destruct (Hm st) as (ev' & Htr & Hraised).
  rewrite Htr in Hev. apply list_elem_of_singleton in Hev. subst ev'.
  rewrite Hfail in Hraised.
  destruct (outcome (m st)) as [a|e']; cbn in Hraised; congruence.
Qed.

Lemma propagates_bind {A B} (m : M A) (k : A -> M B) :
  propagates m -> (forall a, propagates (k a)) -> propagates (bind m k).
Proof.
  intros Hm Hk st ev e. unfold bind.
  destruct (outcome (m st)) as [a|e'] eqn:Hout; cbn.
  - intros Hev Hfail. apply elem_of_app in Hev as [Hev|Hev].
    + specialize (Hm st ev e Hev Hfail). congruence.
    + exact (Hk a _ ev e Hev Hfail).
  - intros Hev Hfail. specialize (Hm st ev e Hev Hfail). congruence.
Qed.

Lemma propagates_comprehension {A B} (f : A -> M B) xs :
  (forall x, propagates (f x)) -> propagates (comprehension f xs).
Proof.
  intros Hf. induction xs as [|x xs IH]; cbn [comprehension].
  - apply propagates_silent. reflexivity.
  - apply propagates_bind; [apply Hf|]. intros y.
    apply propagates_bind; [apply IH|]. intros ys.
    apply propagates_silent. reflexivity.
Qed.

Lemma propagates_getattr {A} self (field : Sampler -> A) :
  propagates (getattr self field).
Proof.
  apply propagates_silent. intros st. unfold getattr.
  destruct (heap st !! self); reflexivity.
Qed.

Lemma propagates_create service (circuit : Circuit) repetitions target :
  propagates (call_create_job service circuit repetitions target).
Proof. apply propagates_call. intros st. eexists. split; reflexivity. Qed.

Lemma propagates_results job : propagates (call_results job).
Proof. apply propagates_call. intros st. eexists. split; reflexivity. Qed.

Lemma propagates_to_cirq_result result (resolver : Resolver) seed :
  propagates (call_to_cirq_result result resolver seed).
Proof. apply propagates_call. intros st. eexists. split; reflexivity. Qed.

Lemma propagates_submit self program repetitions (resolver : Resolver) :
  propagates (submit self program repetitions resolver).
Proof.
  unfold submit.
  apply propagates_bind; [apply propagates_getattr|intros service].
  apply propagates_bind; [apply propagates_silent; reflexivity|intros c].
  apply propagates_bind; [apply propagates_getattr|intros target].
  apply propagates_create.
Qed.

Lemma propagates_convert self result (resolver : Resolver) :
  propagates (convert self result resolver).
Proof.
  unfold convert. destruct (isinstance_QPUResult result).
  - apply propagates_to_cirq_result.
  - apply propagates_bind; [apply propagates_getattr|intros seed].
    apply propagates_to_cirq_result.
Qed.

Lemma propagates_convert_loop self pairs cirq_results :
  propagates (convert_loop self pairs cirq_results).
Proof.
  revert cirq_results.
  induction pairs as [|[result resolver] pairs IH]; intros acc;
    cbn [convert_loop].
  - apply propagates_silent. reflexivity.
  - apply propagates_bind; [apply propagates_convert|]. intros c. apply IH.
Qed.

Lemma propagates_run_sweep self program params repetitions :
  propagates (run_sweep self program params repetitions).
Proof.
  unfold run_sweep.
  apply propagates_bind; [apply propagates_silent; reflexivity|].
  intros resolvers.
  apply propagates_bind;
    [apply propagates_comprehension, propagates_submit|intros jobs].
  apply propagates_bind;
    [apply propagates_comprehension, propagates_results|intros job_results].
  apply propagates_bind; [apply propagates_convert_loop|intros l].
  apply propagates_silent. reflexivity.
Qed.

(** ** Exceptions: nothing is called after a call that raised *)

Lemma stops_silent {A} (m : M A) :
  (forall st, trace (m st) = []) -> stops m.
Proof. intros Hm st i ev e Hev. rewrite Hm in Hev. discriminate. Qed.

Lemma stops_call {A} (m : M A) :
  (forall st, length (trace (m st)) = 1%nat) -> stops m.
Proof.
  intros Hm st i ev e Hev _. apply lookup_lt_Some in Hev.
  rewrite Hm in Hev |- *. lia.
Qed.

Lemma stops_bind {A B} (m : M A) (k : A -> M B) :
  propagates m -> stops m -> (forall a, stops (k a)) -> stops (bind m k).
Proof.
  intros Hprop Hm Hk st i ev e. unfold bind.
  destruct (outcome (m st)) as [a|e'] eqn:Hout; cbn.
  - intros Hev Hfail. rewrite length_app.
    destruct (decide (i < length (trace (m st)))%nat) as [Hlt|Hge].
    + rewrite lookup_app_l in Hev by exact Hlt.
      pose proof (Hprop st ev e (list_elem_of_lookup_2 _ _ _ Hev) Hfail).
      congruence.
    + rewrite lookup_app_r in Hev by lia.
      pose proof (Hk a _ _ ev e Hev Hfail). lia.
  - apply Hm.
Qed.

Lemma stops_comprehension {A B} (f : A -> M B) xs :
  (forall x, propagates (f x)) -> (forall x, stops (f x)) ->
  stops (comprehension f xs).
Proof.
  intros Hprop Hf. induction xs as [|x xs IH]; cbn [comprehension].
  - apply stops_silent. reflexivity.
  - apply stops_bind; [apply Hprop|apply Hf|]. intros y.
    apply stops_bind;
      [apply propagates_comprehension, Hprop|apply IH|].
    intros ys. apply stops_silent. reflexivity.
Qed.

Lemma stops_getattr {A} self (field : Sampler -> A) :
  stops (getattr self field).
Proof.
  apply stops_silent. intros st. unfold getattr.
  destruct (heap st !! self); reflexivity.
Qed.

Lemma stops_submit self program repetitions (resolver : Resolver) :
  stops (submit self program repetitions resolver).
Proof.
  unfold submit.
  apply stops_bind; [apply propagates_getattr|apply stops_getattr|].
  intros service.
  apply stops_bind;
    [apply propagates_silent; reflexivity|apply stops_silent; reflexivity|].
  intros c.
  apply stops_bind; [apply propagates_getattr|apply stops_getattr|].
  intros target. apply stops_call. reflexivity.
Qed.

Lemma stops_convert self result (resolver : Resolver) :
  stops (convert self result resolver).
Proof.
  unfold convert. destruct (isinstance_QPUResult result).
  - apply stops_call. reflexivity.
  - apply stops_bind; [apply propagates_getattr|apply stops_getattr|].
    intros seed. apply stops_call. reflexivity.
Qed.

Lemma stops_convert_loop self pairs cirq_results :
  stops (convert_loop self pairs cirq_results).
Proof.
  revert cirq_results.
  induction pairs as [|[result resolver] pairs IH]; intros acc;
    cbn [convert_loop].
  - apply stops_silent. reflexivity.
  - apply stops_bind; [apply propagates_convert|apply stops_convert|].
    intros c. apply IH.
Qed.

Lemma stops_run_sweep self program params repetitions :
  stops (run_sweep self program params repetitions).
Proof.
  unfold run_sweep.
  apply stops_bind;
    [apply propagates_silent; reflexivity|apply stops_silent; reflexivity|].
  intros resolvers.
  apply stops_bind;
    [apply propagates_comprehension, propagates_submit
    |apply stops_comprehension; [apply propagates_submit|apply stops_submit]|].
  intros jobs.
  apply stops_bind;
    [apply propagates_comprehension, propagates_results
    |apply stops_comprehension;
       [apply propagates_results|intros job; apply stops_call; reflexivity]|].
  intros job_results.
  apply stops_bind;
    [apply propagates_convert_loop|apply stops_convert_loop|].
  intros l. apply stops_silent. reflexivity.
Qed.

(** ** The loops and their behaviours *)

Lemma comprehension_cons_returned {A B} (f : A -> M B) x xs st y :
  outcome (f x st) = Returned y ->
  comprehension f (x :: xs) st =
    {| outcome := prepend y (outcome (comprehension f xs (final (f x st))));
       final := final (comprehension f xs (final (f x st)));
       trace := trace (f x st) ++ trace (comprehension f xs (final (f x st))) |}.
Proof.
  intros Hy. cbn [comprehension]. rewrite (bind_returned _ _ _ _ Hy).
  unfold bind, ret.
  destruct (outcome (comprehension f xs (final (f x st)))); cbn;
    rewrite ?app_nil_r; reflexivity.
Qed.

Lemma comprehension_cons_raised {A B} (f : A -> M B) x xs st e :
  outcome (f x st) = Raised e ->
  comprehension f (x :: xs) st =
    {| outcome := Raised e; final := final (f x st); trace := trace (f x st) |}.
Proof. intros He. cbn [comprehension]. apply bind_raised, He. Qed.

(** Lines 82-86, once [self] is known to be the object [obj]. *)
Lemma submit_spec self obj program repetitions (resolver : Resolver) st :
  heap st !! self = Some obj ->
  submit self program repetitions resolver st =
    match resolve_parameters program resolver with
    | Returned circuit =>
        call_create_job (_service obj) circuit repetitions (_target obj) st
    | Raised e => {| outcome := Raised e; final := st; trace := [] |}
    end.
Proof.
  intros Hobj. unfold submit, bind, getattr, pure. cbn. rewrite Hobj. cbn.
  destruct (resolve_parameters program resolver) as [circuit|e]; cbn;
    [rewrite Hobj|]; reflexivity.
Qed.

Lemma comprehension_submit_Submitted self obj program repetitions resolvers st :
  heap st !! self = Some obj ->
  Submitted obj program repetitions resolvers
    (trace (comprehension (submit self program repetitions) resolvers st))
    (outcome (comprehension (submit self program repetitions) resolvers st)).
Proof.
  revert st. induction resolvers as [|resolver resolvers IH]; intros st Hobj.
  - constructor.
  - pose proof (submit_spec _ _ program repetitions resolver _ Hobj) as Hs.
    destruct (resolve_parameters program resolver) as [circuit|e] eqn:Hres.
    + destruct (create_job (_service obj) circuit repetitions (_target obj)
                  (world st)) as [[job|e] w] eqn:Hjob.
      * rewrite (comprehension_cons_returned _ _ _ _ job)
          by (rewrite Hs; cbn; rewrite Hjob; reflexivity).
        cbn [outcome trace]. rewrite Hs at 1. cbn. rewrite Hjob. cbn.
        apply Submitted_accepted; [exact Hres|].
        apply IH. rewrite keeps_heap_submit. exact Hobj.
      * rewrite (comprehension_cons_raised _ _ _ _ e)
          by (rewrite Hs; cbn; rewrite Hjob; reflexivity).
        cbn [outcome trace]. rewrite Hs. cbn. rewrite Hjob. cbn.
        apply Submitted_refused. exact Hres.
    + rewrite (comprehension_cons_raised _ _ _ _ e) by (rewrite Hs; reflexivity).
      rewrite Hs. cbn. apply Submitted_unresolved. exact Hres.
Qed.

Lemma comprehension_results_Awaited jobs st :
  Awaited jobs (trace (comprehension call_results jobs st))
    (outcome (comprehension call_results jobs st)).
Proof.
  revert st. induction jobs as [|job jobs IH]; intros st.
  - constructor.
  - destruct (results job (world st)) as [[result|e] w] eqn:Hres.
    + rewrite (comprehension_cons_returned _ _ _ _ result)
        by (cbn; rewrite Hres; reflexivity).
      cbn. rewrite Hres. cbn. apply Awaited_done, IH.
    + rewrite (comprehension_cons_raised _ _ _ _ e)
        by (cbn; rewrite Hres; reflexivity).
      cbn. rewrite Hres. cbn. apply Awaited_failed.
Qed.

(** Lines 92-95, once [self] is known to be the object [obj]. *)
Lemma convert_spec self obj result (resolver : Resolver) st :
  heap st !! self = Some obj ->
  convert self result resolver st =
    call_to_cirq_result result resolver (seed_kwarg obj result) st.
Proof.
  intros Hobj. unfold convert, seed_kwarg.
  destruct (isinstance_QPUResult result); [reflexivity|].
  unfold bind, getattr. rewrite Hobj. reflexivity.
Qed.

Lemma extend_prepend {E A} (l : list A) (a : A) (o : Outcome E (list A)) :
  extend (l ++ [a]) o = extend l (prepend a o).
Proof. destruct o; cbn; [rewrite <- app_assoc|]; reflexivity. Qed.

Lemma convert_loop_Converted self obj pairs cirq_results st :
  heap st !! self = Some obj ->
  exists o,
    Converted obj pairs (trace (convert_loop self pairs cirq_results st)) o /\
    outcome (convert_loop self pairs cirq_results st) = extend cirq_results o.
Proof.
  revert cirq_results st.
  induction pairs as [|[result resolver] pairs IH]; intros acc st Hobj.
  - exists (Returned []). split; [constructor|]. cbn. rewrite app_nil_r.
    reflexivity.
  - cbn [convert_loop].
    pose proof (convert_spec _ _ result resolver _ Hobj) as Hc.
    destruct (to_cirq_result result resolver (seed_kwarg obj result)
                (world st)) as [[c|e] w] eqn:Hconv.
    + rewrite (bind_returned _ _ _ c)
        by (rewrite Hc; cbn; rewrite Hconv; reflexivity).
      cbn [outcome trace]. rewrite Hc. cbn [call_to_cirq_result trace final].
      rewrite Hconv. cbn [fst snd].
      edestruct (IH (acc ++ [c])) as (o & Hconverted & Hout);
        [|exists (prepend c o); split;
           [apply Converted_done, Hconverted
           |rewrite Hout; apply extend_prepend]].
      exact Hobj.
    + rewrite (bind_raised _ _ _ e)
        by (rewrite Hc; cbn; rewrite Hconv; reflexivity).
      cbn [outcome trace]. rewrite Hc. cbn. rewrite Hconv. cbn.
      exists (Raised e). split; [apply Converted_failed|reflexivity].
Qed.

Lemma run_sweep_unexpanded self program params repetitions st e :
  to_resolvers params = Raised e ->
  run_sweep self program params repetitions st =
    {| outcome := Raised e; final := st; trace := [] |}.
Proof. intros Hsweep. unfold run_sweep, bind, pure. rewrite Hsweep. reflexivity. Qed.

Lemma run_sweep_expanded self program params repetitions st resolvers :
  to_resolvers params = Returned resolvers ->
  run_sweep self program params repetitions st =
    bind (comprehension (submit self program repetitions) resolvers) (fun jobs =>
    bind (comprehension call_results jobs) (fun job_results =>
    bind (convert_loop self (zip job_results resolvers) []) (fun cirq_results =>
    ret cirq_results))) st.
Proof.
  intros Hsweep. unfold run_sweep. unfold bind at 1, pure. cbn.
  rewrite Hsweep. cbn.
  destruct (bind _ _ st) as [o st' tr]. reflexivity.
Qed.

(** Without the object [self] nothing is sent. *)
Lemma run_sweep_no_object self program params repetitions st :
  heap st !! self = None ->
  trace (run_sweep self program params repetitions st) = [].
Proof.
  intros Hobj. destruct (to_resolvers params) as [resolvers|e] eqn:Hsweep.
  - rewrite (run_sweep_expanded _ _ _ _ _ _ Hsweep).
    destruct resolvers as [|resolver resolvers]; [reflexivity|].
    rewrite (bind_raised _ _ _ AttributeError).
    + cbn [trace]. rewrite (comprehension_cons_raised _ _ _ _ AttributeError).
      * cbn [trace]. unfold submit, bind. rewrite getattr_none by exact Hobj.
        reflexivity.
      * unfold submit, bind. rewrite getattr_none by exact Hobj. reflexivity.
    + rewrite (comprehension_cons_raised _ _ _ _ AttributeError); [reflexivity|].
      unfold submit, bind. rewrite getattr_none by exact Hobj. reflexivity.
  - rewrite (run_sweep_unexpanded _ _ _ _ _ _ Hsweep). reflexivity.
Qed.

(** Every run of [run_sweep] is one of the behaviours [Swept] lists. *)
Lemma run_sweep_Swept self obj program params repetitions resolvers st :
  heap st !! self = Some obj ->
  to_resolvers params = Returned resolvers ->
  Swept obj program repetitions resolvers
    (trace (run_sweep self program params repetitions st))
    (outcome (run_sweep self program params repetitions st)).
Proof.
  intros Hobj Hsweep. rewrite (run_sweep_expanded _ _ _ _ _ _ Hsweep).
  pose proof (comprehension_submit_Submitted _ _ program repetitions resolvers
                _ Hobj) as Hsub.
  destruct (outcome (comprehension (submit self program repetitions)
                       resolvers st)) as [jobs|e] eqn:Hjobs.
  - rewrite (bind_returned _ _ _ _ Hjobs). cbn [outcome trace].
    set (st1 := final (comprehension (submit self program repetitions)
                         resolvers st)).
    pose proof (comprehension_results_Awaited jobs st1) as Hwait.
    destruct (outcome (comprehension call_results jobs st1))
      as [job_results|e] eqn:Hres.
    + rewrite (bind_returned _ _ _ _ Hres). cbn [outcome trace].
      set (st2 := final (comprehension call_results jobs st1)).
      assert (heap st2 !! self = Some obj) as Hobj2.
      { unfold st2, st1.
        rewrite (keeps_heap_comprehension _ _ keeps_heap_results).
        rewrite (keeps_heap_comprehension _ _
                   (keeps_heap_submit self program repetitions)).
        exact Hobj. }
      destruct (convert_loop_Converted _ _ (zip job_results resolvers) [] _
                  Hobj2) as (o & Hconv & Hout).
      rewrite bind_ret, Hout.
      replace (extend [] o) with o by (destruct o; reflexivity).
      eapply Swept_converting; eauto.
    + rewrite (bind_raised _ _ _ _ Hres). cbn [outcome trace].
      eapply Swept_awaiting; eauto.
  - rewrite (bind_raised _ _ _ _ Hjobs). cbn [outcome trace].
    apply Swept_submitting. exact Hsub.
Qed.

(** ** What the behaviours say *)

Section BehaviourFacts.
Context (obj : Sampler) (program : Circuit) (repetitions : Z).

Lemma omap_none {A B} (f : A -> option B) (l : list A) :
  Forall (fun x => f x = None) l -> omap f l = [].
Proof.
  induction 1 as [|x l Hx _ IH]; [reflexivity|]. cbn. rewrite Hx. exact IH.
Qed.

Lemma Submitted_returned resolvers tr jobs :
  Submitted obj program repetitions resolvers tr (Returned jobs) ->
  Forall3
    (fun resolver job ev =>
       exists circuit,
         resolve_parameters program resolver = Returned circuit /\
         ev = EvCreateJob (_service obj) circuit repetitions (_target obj)
                (Returned job))
    resolvers jobs tr.
Proof.
  intros Hsub. remember (Returned jobs) as o eqn:Ho. revert jobs Ho.
  induction Hsub as [| | |resolver resolvers circuit job tr o Hres Hsub IH];
    intros jobs Ho; try discriminate.
  - injection Ho as <-. constructor.
  - destruct o as [js|e]; [|discriminate]. injection Ho as <-.
    constructor; [eauto|]. apply IH. reflexivity.
Qed.

Lemma Submitted_raised resolvers tr e :
  Submitted obj program repetitions resolvers tr (Raised e) ->
  (exists ev, ev ∈ tr /\ failure ev = Some e) \/
  (exists resolver,
      resolver ∈ resolvers /\ resolve_parameters program resolver = Raised e).
Proof.
  intros Hsub. remember (Raised e) as o eqn:Ho. revert Ho.
  induction Hsub as [|resolver resolvers e' Hres|resolver resolvers circuit e'
                     Hres|resolver resolvers circuit job tr o Hres Hsub IH];
    intros Ho; try discriminate.
  - injection Ho as ->. right. exists resolver. split; [left|exact Hres].
  - injection Ho as ->. left. eexists. split; [left|reflexivity].
  - destruct o as [js|e'']; [discriminate|]. injection Ho as ->.
    destruct (IH eq_refl) as [(ev & Hev & Hfail)|(r & Hr & Hraise)].
    + left. exists ev. split; [right; exact Hev|exact Hfail].
    + right. exists r. split; [right; exact Hr|exact Hraise].
Qed.

Lemma Submitted_creates resolvers tr o :
  Submitted obj program repetitions resolvers tr o ->
  Forall (fun ev => is_create ev = true) tr.
Proof. induction 1; repeat constructor; assumption. Qed.

Lemma Submitted_planned resolvers tr o :
  Submitted obj program repetitions resolvers tr o ->
  create_calls tr `prefix_of` planned_calls obj program repetitions resolvers.
Proof.
  induction 1 as [| |resolver resolvers circuit e Hres
                  |resolver resolvers circuit job tr o Hres Hsub IH];
    cbn [planned_calls]; try apply prefix_nil; rewrite Hres.
  - apply prefix_cons, prefix_nil.
  - apply prefix_cons, IH.
Qed.

Lemma Submitted_unrefused resolvers tr o :
  Submitted obj program repetitions resolvers tr o ->
  Forall (fun ev => failure ev = None) tr ->
  create_calls tr = planned_calls obj program repetitions resolvers.
Proof.
  induction 1 as [|resolver resolvers e Hres|resolver resolvers circuit e Hres
                  |resolver resolvers circuit job tr o Hres Hsub IH];
    intros Hok; cbn [planned_calls]; rewrite ?Hres; try reflexivity.
  - apply Forall_cons in Hok as [Hfail _]. discriminate.
  - apply Forall_cons in Hok as [_ Hok]. cbn. f_equal. apply IH, Hok.
Qed.

Lemma Awaited_returned jobs tr job_results :
  Awaited jobs tr (Returned job_results) ->
  Forall3 (fun job result ev => ev = EvResults job (Returned result))
    jobs job_results tr.
Proof.
  intros Hwait. remember (Returned job_results) as o eqn:Ho.
  revert job_results Ho.
  induction Hwait as [| |job jobs result tr o Hwait IH];
    intros job_results Ho; try discriminate.
  - injection Ho as <-. constructor.
  - destruct o as [rs|e]; [|discriminate]. injection Ho as <-.
    constructor; [reflexivity|]. apply IH. reflexivity.
Qed.

Lemma Awaited_raised jobs tr e :
  Awaited jobs tr (Raised e) -> exists ev, ev ∈ tr /\ failure ev = Some e.
Proof.
  intros Hwait. remember (Raised e) as o eqn:Ho. revert Ho.
  induction Hwait as [|job jobs e'|job jobs result tr o Hwait IH];
    intros Ho; try discriminate.
  - injection Ho as ->. eexists. split; [left|reflexivity].
  - destruct o as [rs|e']; [discriminate|]. injection Ho as ->.
    destruct (IH eq_refl) as (ev & Hev & Hfail).
    exists ev. split; [right; exact Hev|exact Hfail].
Qed.

Lemma Awaited_retrievals jobs tr o :
  Awaited jobs tr o -> Forall (fun ev => is_retrieval ev = true) tr.
Proof. induction 1; repeat constructor; assumption. Qed.

Lemma Awaited_in_order jobs tr o :
  Awaited jobs tr o -> awaited tr `prefix_of` jobs.
Proof.
  induction 1 as [| |job jobs result tr o Hwait IH]; cbn.
  - apply prefix_nil.
  - apply prefix_cons, prefix_nil.
  - apply prefix_cons, IH.
Qed.

Lemma Converted_returned pairs tr cirq_results :
  Converted obj pairs tr (Returned cirq_results) ->
  Forall3
    (fun pair c ev =>
       ev = EvToCirqResult pair.1 pair.2 (seed_kwarg obj pair.1) (Returned c))
    pairs cirq_results tr.
Proof.
  intros Hconv. remember (Returned cirq_results) as o eqn:Ho.
  revert cirq_results Ho.
  induction Hconv as [| |result resolver pairs c tr o Hconv IH];
    intros cirq_results Ho; try discriminate.
  - injection Ho as <-. constructor.
  - destruct o as [cs|e]; [|discriminate]. injection Ho as <-.
    constructor; [reflexivity|]. apply IH. reflexivity.
Qed.

Lemma Converted_raised pairs tr e :
  Converted obj pairs tr (Raised e) ->
  exists ev, ev ∈ tr /\ failure ev = Some e.
Proof.
  intros Hconv. remember (Raised e) as o eqn:Ho. revert Ho.
  induction Hconv as [|result resolver pairs e'
                      |result resolver pairs c tr o Hconv IH];
    intros Ho; try discriminate.
  - injection Ho as ->. eexists. split; [left|reflexivity].
  - destruct o as [cs|e']; [discriminate|]. injection Ho as ->.
    destruct (IH eq_refl) as (ev & Hev & Hfail).
    exists ev. split; [right; exact Hev|exact Hfail].
Qed.

Lemma Converted_conversions pairs tr o :
  Converted obj pairs tr o -> Forall (fun ev => is_conversion ev = true) tr.
Proof. induction 1; repeat constructor; assumption. Qed.

Lemma Submitted_returned_calls resolvers tr jobs :
  Submitted obj program repetitions resolvers tr (Returned jobs) ->
  exists circuits,
    Forall2 (fun resolver circuit =>
               resolve_parameters program resolver = Returned circuit)
      resolvers circuits /\
    create_calls tr =
      map (fun circuit => (_service obj, circuit, repetitions, _target obj))
        circuits /\
    (creations tr).*2 = jobs.
Proof.
  intros Hsub. remember (Returned jobs) as o eqn:Ho. revert jobs Ho.
  induction Hsub as [| | |resolver resolvers circuit job tr o Hres Hsub IH];
    intros jobs Ho; try discriminate.
  - injection Ho as <-. exists []. repeat split. constructor.
  - destruct o as [js|e]; [|discriminate]. injection Ho as <-.
    destruct (IH js eq_refl) as (circuits & Hall & Hcalls & Hjobs).
    exists (circuit :: circuits). split; [constructor; assumption|].
    cbn. rewrite <- Hjobs. split; [f_equal; exact Hcalls|reflexivity].
Qed.

Lemma create_call_retrieval ev : is_retrieval ev = true -> create_call ev = None.
Proof. destruct ev; cbn; congruence. Qed.

Lemma create_call_conversion ev : is_conversion ev = true -> create_call ev = None.
Proof. destruct ev; cbn; congruence. Qed.

Lemma creation_retrieval ev : is_retrieval ev = true -> creation ev = None.
Proof. destruct ev; cbn; congruence. Qed.

Lemma creation_conversion ev : is_conversion ev = true -> creation ev = None.
Proof. destruct ev; cbn; congruence. Qed.

Lemma awaited_job_create ev : is_create ev = true -> awaited_job ev = None.
Proof. destruct ev; cbn; congruence. Qed.

Lemma awaited_job_conversion ev : is_conversion ev = true -> awaited_job ev = None.
Proof. destruct ev; cbn; congruence. Qed.

(** The log of a sweep is made of three parts: creations, then retrievals,
    then conversions. *)
Lemma Swept_phases resolvers tr o :
  Swept obj program repetitions resolvers tr o ->
  exists tr1 tr2 tr3 o1,
    tr = tr1 ++ tr2 ++ tr3 /\
    Submitted obj program repetitions resolvers tr1 o1 /\
    Forall (fun ev => is_retrieval ev = true) tr2 /\
    Forall (fun ev => is_conversion ev = true) tr3 /\
    awaited tr2 `prefix_of` (creations tr1).*2 /\
    (tr2 ++ tr3 <> [] -> length (creations tr1) = length resolvers).
Proof.
  intros [tr' e Hsub|tr1 jobs tr2 e Hsub Hwait
         |tr1 jobs tr2 job_results tr3 o' Hsub Hwait Hconv].
  - exists tr', [], [], (Raised e). rewrite app_nil_r.
    repeat split; try constructor; try assumption.
    + apply prefix_nil.
    + intros Hne. contradiction.
  - exists tr1, tr2, [], (Returned jobs). rewrite app_nil_r.
    destruct (Submitted_returned_calls _ _ _ Hsub) as (_ & _ & _ & Hjobs).
    pose proof (Forall3_length_lm _ _ _ _ (Submitted_returned _ _ _ Hsub))
      as Hlen.
    repeat split; try constructor; try assumption.
    + eapply Awaited_retrievals, Hwait.
    + rewrite Hjobs. eapply Awaited_in_order, Hwait.
    + intros _. rewrite <- (length_fmap snd), Hjobs. congruence.
  - exists tr1, tr2, tr3, (Returned jobs).
    destruct (Submitted_returned_calls _ _ _ Hsub) as (_ & _ & _ & Hjobs).
    pose proof (Forall3_length_lm _ _ _ _ (Submitted_returned _ _ _ Hsub))
      as Hlen.
    repeat split; try assumption.
    + eapply Awaited_retrievals, Hwait.
    + eapply Converted_conversions, Hconv.
    + rewrite Hjobs. eapply Awaited_in_order, Hwait.
    + intros _. rewrite <- (length_fmap snd), Hjobs. congruence.
Qed.

(** The calls to [create_job] of a sweep are those of its first loop. *)
Lemma Swept_create_calls resolvers tr o :
  Swept obj program repetitions resolvers tr o ->
  exists tr1 o1,
    Submitted obj program repetitions resolvers tr1 o1 /\
    create_calls tr = create_calls tr1.
Proof.
  intros Hswept.
  destruct (Swept_phases _ _ _ Hswept)
    as (tr1 & tr2 & tr3 & o1 & -> & Hsub & Htr2 & Htr3 & _ & _).
  exists tr1, o1. split; [exact Hsub|].
  unfold create_calls. rewrite !omap_app.
  rewrite (omap_none _ tr2), (omap_none _ tr3), !app_nil_r; [reflexivity| |].
  - eapply Forall_impl; [exact Htr3|]. apply create_call_conversion.
  - eapply Forall_impl; [exact Htr2|]. apply create_call_retrieval.
Qed.

Lemma planned_calls_length resolvers :
  Forall (fun resolver =>
            is_Returned (resolve_parameters program resolver) = true)
    resolvers ->
  length (planned_calls obj program repetitions resolvers) = length resolvers.
Proof.
  induction 1 as [|resolver resolvers Hres _ IH]; [reflexivity|].
  cbn [planned_calls].
  destruct (resolve_parameters program resolver); [|discriminate].
  cbn. rewrite IH. reflexivity.
Qed.

End BehaviourFacts.

End AdapterFacts.

(** * The claims *)

Section Claims.
Context `{Backend}.

Implicit Types (st : State) (self : positive) (obj : Sampler).
Implicit Types (program : Circuit) (params : Sweepable) (repetitions : Z).


(** C2, amended. For a sweepable that expands to [resolvers] and any
    [repetitions], the calls [run_sweep] makes to [create_job] are, in
    order, calls the sweep plans: one per resolver, with the circuit
    resolved with that resolver, [repetitions] as it was given and the
    sampler's service and target.  In every run they are an initial part of
    that plan, and a call that raised is the last call of the run.  They are
    all of the plan, one call for each of the resolvers, when no call to
    [create_job] raised and the circuit could be resolved with every
    resolver; so they are in every run that returns. *)
Theorem run_sweep_creates_one_job_per_resolver
    self obj program params repetitions resolvers st :
  heap st !! self = Some obj ->
  to_resolvers params = Returned resolvers ->
  let run := run_sweep self program params repetitions st in
  let calls := create_calls (trace run) in
  calls `prefix_of` planned_calls obj program repetitions resolvers /\
  (forall i ev e,
      trace run !! i = Some ev -> failure ev = Some e ->
      S i = length (trace run)) /\
  (Forall (fun ev => is_create ev = true -> failure ev = None) (trace run) ->
   Forall (fun resolver =>
             is_Returned (resolve_parameters program resolver) = true)
     resolvers ->
   calls = planned_calls obj program repetitions resolvers /\
   length calls = length resolvers) /\
  (is_Returned (outcome run) = true ->
   length calls = length resolvers /\
   exists circuits,
     Forall2 (fun resolver circuit =>
                resolve_parameters program resolver = Returned circuit)
       resolvers circuits /\
     calls =
       map (fun circuit => (_service obj, circuit, repetitions, _target obj))
         circuits).
Proof.
  intros Hobj Hsweep run calls.
  pose proof (run_sweep_Swept _ _ program _ repetitions _ st Hobj Hsweep)
    as Hswept.
  fold run in Hswept.
  destruct (Swept_phases _ _ _ _ _ _ Hswept)
    as (tr1 & tr2 & tr3 & o1 & Htr & Hsub & Htr2 & Htr3 & _ & _).
  destruct (Swept_create_calls _ _ _ _ _ _ Hswept)
    as (tr1' & o1' & Hsub' & Hcalls).
  fold calls in Hcalls.
  split; [|split; [|split]].
  - rewrite Hcalls. eapply Submitted_planned, Hsub'.
  - apply stops_run_sweep.
  - intros Hok Hresolved.
    assert (calls = planned_calls obj program repetitions resolvers) as ->.
    { assert (calls = create_calls tr1) as ->.
      { unfold calls, create_calls. rewrite Htr, !omap_app.
        rewrite (omap_none _ tr2), (omap_none _ tr3), !app_nil_r;
          [reflexivity| |].
        - eapply Forall_impl; [exact Htr3|]. apply create_call_conversion.
        - eapply Forall_impl; [exact Htr2|]. apply create_call_retrieval. }
      eapply Submitted_unrefused; [exact Hsub|].
      pose proof (Submitted_creates _ _ _ _ _ _ Hsub) as Hcreates.
      rewrite Htr in Hok. apply Forall_app in Hok as [Hok _].
      apply Forall_forall. intros ev Hev.
      rewrite Forall_forall in Hok, Hcreates. auto. }
    split; [reflexivity|]. apply planned_calls_length, Hresolved.
  - intros Hret. clear Hcalls Htr Hsub Htr2 Htr3 Hsub'. destruct Hswept as
      [tr e Hsub|tr1'' jobs tr2' e Hsub Hwait
      |tr1'' jobs tr2' job_results tr3' o Hsub Hwait Hconv];
      try discriminate.
    destruct (Submitted_returned_calls _ _ _ _ _ _ Hsub)
      as (circuits & Hall & Hcalls & _).
    assert (calls = create_calls tr1'') as ->.
    { unfold calls, create_calls. rewrite !omap_app.
      rewrite (omap_none _ tr2'), (omap_none _ tr3'), !app_nil_r;
        [reflexivity| |].
      - eapply Forall_impl; [eapply Converted_conversions, Hconv|].
        apply create_call_conversion.
      - eapply Forall_impl; [eapply Awaited_retrievals, Hwait|].
        apply create_call_retrieval. }
    split; [|exists circuits; split; assumption].
    rewrite Hcalls, length_map. symmetry. eapply Forall2_length, Hall.
Qed.

(** C5. If a call to [create_job] or to a job's [results] raises, then
    [run_sweep] raises that very exception, and so returns no list; the
    call that raised is the last call of the run. *)
Theorem run_sweep_propagates_service_errors
    self program params repetitions st ev e :
  let run := run_sweep self program params repetitions st in
  ev ∈ trace run ->
  service_failure ev = Some e ->
  outcome run = Raised e /\
  is_Returned (outcome run) = false /\
  last (trace run) = Some ev.
Proof.
  intros run Hev Hfail.
  assert (failure ev = Some e) as Hfail'
    by (destruct ev; cbn in Hfail |- *; congruence).
  assert (outcome run = Raised e) as Hout
    by exact (propagates_run_sweep self program params repetitions st ev e
                Hev Hfail').
  split; [exact Hout|]. split; [rewrite Hout; reflexivity|].
  apply list_elem_of_lookup in Hev as (i & Hi).
  pose proof (stops_run_sweep self program params repetitions st i ev e Hi
                Hfail') as Hlast.
  fold run in Hlast. rewrite last_lookup, <- Hlast. exact Hi.
Qed.

(** C6. In the log of every run of [run_sweep], every call to [create_job]
    stands before every call to [results]; the jobs awaited are, in order,
    the jobs created, from the first on; and if any result is awaited at
    all, then a job was created for every resolver of the sweep before. *)
Theorem run_sweep_creates_all_jobs_before_awaiting
    self program params repetitions st :
  let tr := trace (run_sweep self program params repetitions st) in
  (forall i j ev_i ev_j,
      tr !! i = Some ev_i -> is_retrieval ev_i = true ->
      tr !! j = Some ev_j -> is_create ev_j = true ->
      (j < i)%nat) /\
  awaited tr `prefix_of` (creations tr).*2 /\
  (forall resolvers,
      to_resolvers params = Returned resolvers ->
      awaited tr <> [] ->
      length (creations tr) = length resolvers).
Proof.
  intros tr.
  assert (tr = [] \/
          exists obj resolvers,
            to_resolvers params = Returned resolvers /\
            Swept obj program repetitions resolvers tr
              (outcome (run_sweep self program params repetitions st)))
    as [Hnil|(obj & resolvers & Hsweep & Hswept)].
  { destruct (heap st !! self) as [obj|] eqn:Hobj.
    - destruct (to_resolvers params) as [resolvers|e] eqn:Hsweep.
      + right. exists obj, resolvers. split; [reflexivity|].
        apply (run_sweep_Swept _ _ _ _ _ _ _ Hobj Hsweep).
      + left. unfold tr. rewrite (run_sweep_unexpanded _ _ _ _ _ _ Hsweep).
        reflexivity.
    - left. apply run_sweep_no_object, Hobj. }
  { rewrite Hnil. repeat split.
    - intros i j ev_i ev_j Hi. rewrite lookup_nil in Hi. discriminate.
    - apply prefix_nil.
    - intros resolvers _ Hne. contradiction. }
  destruct (Swept_phases _ _ _ _ _ _ Hswept)
    as (tr1 & tr2 & tr3 & o1 & Htr & Hsub & Htr2 & Htr3 & Hprefix & Hall).
  pose proof (Submitted_creates _ _ _ _ _ _ Hsub) as Htr1.
  assert (awaited tr = awaited tr2) as Hawaited.
  { unfold awaited. rewrite Htr, !omap_app.
    rewrite (omap_none _ tr1), (omap_none _ tr3), app_nil_r; [reflexivity| |].
    - eapply Forall_impl; [exact Htr3|]. apply awaited_job_conversion.
    - eapply Forall_impl; [exact Htr1|]. apply awaited_job_create. }
  assert (creations tr = creations tr1) as Hcreations.
  { unfold creations. rewrite Htr, !omap_app.
    rewrite (omap_none _ tr2), (omap_none _ tr3), !app_nil_r; [reflexivity| |].
    - eapply Forall_impl; [exact Htr3|]. apply creation_conversion.
    - eapply Forall_impl; [exact Htr2|]. apply creation_retrieval. }
  split; [|split].
  - intros i j ev_i ev_j Hi Hret Hj Hcreate. rewrite Htr in Hi, Hj.
    destruct (decide (i < length tr1)%nat) as [Hlt|Hge].
    + rewrite lookup_app_l in Hi by exact Hlt.
      rewrite Forall_forall in Htr1.
      pose proof (Htr1 _ (list_elem_of_lookup_2 _ _ _ Hi)) as Hc.
      destruct ev_i; discriminate.
    + destruct (decide (j < length tr1)%nat) as [Hlt|Hge']; [lia|].
      rewrite lookup_app_r in Hj by lia.
      apply list_elem_of_lookup_2, elem_of_app in Hj as [Hj|Hj].
      * rewrite Forall_forall in Htr2. specialize (Htr2 _ Hj).
        destruct ev_j; discriminate.
      * rewrite Forall_forall in Htr3. specialize (Htr3 _ Hj).
        destruct ev_j; discriminate.
  - rewrite Hawaited, Hcreations. exact Hprefix.
  - intros resolvers' Hsweep' Hne. rewrite Hcreations.
    assert (resolvers' = resolvers) as -> by congruence.
    apply Hall. rewrite Hawaited in Hne. destruct tr2; [contradiction|].
    discriminate.
Qed.


(** C9. For a sweepable that expands to no resolver, [run_sweep] returns
    the empty list, logs no call and leaves the store as it was. *)
Theorem run_sweep_of_empty_sweep self program params repetitions st :
  to_resolvers params = Returned [] ->
  run_sweep self program params repetitions st =
    {| outcome := Returned []; final := st; trace := [] |}.
Proof.
  intros Hsweep. rewrite (run_sweep_expanded _ _ _ _ _ _ Hsweep).
  reflexivity.
Qed.

(** C10. A result that is no instance of [QPUResult], whatever else it is,
    is converted by its own method [to_cirq_result] with the sampler's seed
    passed as [seed]; the conversion raises only if that method does. *)
Theorem convert_dispatch_is_catch_all self obj result (resolver : Resolver) st :
  heap st !! self = Some obj ->
  isinstance_QPUResult result = false ->
  let answer :=
    to_cirq_result result resolver (Some (_seed obj)) (world st) in
  convert self result resolver st =
    {| outcome := answer.1;
       final := {| heap := heap st; world := answer.2 |};
       trace :=
         [EvToCirqResult result resolver (Some (_seed obj)) answer.1] |}.
Proof.
  intros Hobj Hother answer.
  rewrite (convert_spec _ _ _ _ _ Hobj). unfold seed_kwarg.
  rewrite Hother. reflexivity.
Qed.

(** C3. The conversion of an instance of [QPUResult] does not depend on the
    seed: for two samplers made with the same service and target and with
    the seeds [seed1] and [seed2], it gives the same outcome, logs the same
    call and leaves the world in the same state. *)
Theorem convert_qpu_result_ignores_seed
    self service target seed1 seed2 result (resolver : Resolver) st :
  isinstance_QPUResult result = true ->
  let st1 := final (Sampler__init__ self service target seed1 st) in
  let st2 := final (Sampler__init__ self service target seed2 st) in
  outcome (convert self result resolver st1) =
    outcome (convert self result resolver st2) /\
  trace (convert self result resolver st1) =
    trace (convert self result resolver st2) /\
  world (final (convert self result resolver st1)) =
    world (final (convert self result resolver st2)).
Proof.
  intros Hqpu st1 st2. unfold convert. rewrite Hqpu.
  repeat split.
Qed.

End Claims.

(** ** Parameter resolution with nothing to resolve *)

Lemma resolve_slot_empty (s : ParamResolution.Slot) :
  ParamResolution.resolve_slot ∅ s = s.
Proof. destruct s as [name|v]; cbn; [rewrite lookup_empty|]; reflexivity. Qed.

Lemma resolve_operation_empty (op : ParamResolution.Operation) :
  ParamResolution.resolve_operation ∅ op = op.
Proof.
  destruct op as [g qs ss]. unfold ParamResolution.resolve_operation. cbn.
  f_equal. induction ss as [|s ss IH]; [reflexivity|].
  cbn. rewrite resolve_slot_empty, IH. reflexivity.
Qed.

Lemma resolve_empty (program : ParamResolution.circuit) :
  ParamResolution.resolve program ∅ = program.
Proof.
  induction program as [|op program IH]; [reflexivity|].
  cbn. rewrite resolve_operation_empty. f_equal. exact IH.
Qed.

Section ResolvedCircuits.
Context (sweepable result exc : Type) (attribute_error : exc).
Context (expand : sweepable -> Outcome exc (list ParamResolution.resolver)).

#[local] Instance modelled_cirq : Framework :=
  ParamResolution.framework sweepable result exc attribute_error expand.

Context `{!Backend}.

(** C7. For a sweepable that expands to the one resolver that binds
    nothing, [run_sweep] calls [create_job] once, and the circuit it passes
    is the circuit it was given. *)
Theorem run_sweep_submits_program_for_empty_resolver
    (self : positive) (obj : Sampler) (program : ParamResolution.circuit)
    (params : sweepable) (repetitions : Z) (st : State) :
  heap st !! self = Some obj ->
  expand params = Returned [∅] ->
  create_calls (trace (run_sweep self program params repetitions st)) =
    [(_service obj, program, repetitions, _target obj)].
Proof.
  intros Hobj Hsweep.
  pose proof (run_sweep_Swept self obj program params repetitions [∅] st
                Hobj Hsweep) as Hswept.
  destruct (Swept_create_calls _ _ _ _ _ _ Hswept) as (tr1 & o1 & Hsub & ->).
  inversion Hsub as
    [|resolver resolvers e Hres|resolver resolvers circuit e Hres
     |resolver resolvers circuit job tr o Hres Hrest]; subst.
  - discriminate Hres.
  - cbn in Hres. injection Hres as <-. rewrite resolve_empty. reflexivity.
  - cbn in Hres. injection Hres as <-. rewrite resolve_empty.
    inversion Hrest; subst. reflexivity.
Qed.

End ResolvedCircuits.

(** ** Simulator results and seeds *)

Section SimulatorSeeds.
Context `{Framework}.
Context (QPUData SimData Foreign RngState Remote : Type).
Context (RandomState : Z -> RngState).
Context (qpu_counts : QPUData -> Resolver -> Outcome Exc CirqResult).
Context (sample : SimData -> Resolver -> RngState ->
                  Outcome Exc CirqResult * RngState).
Context (foreign_to_cirq_result :
           Foreign -> Resolver -> option Seed ->
           IonQResults.RngWorld RngState Remote ->
           Outcome Exc CirqResult * IonQResults.RngWorld RngState Remote).
Context (service job : Type).
Context (create :
           service -> Circuit -> Z -> option string ->
           IonQResults.RngWorld RngState Remote ->
           Outcome Exc job * IonQResults.RngWorld RngState Remote).
Context (wait :
           job -> IonQResults.RngWorld RngState Remote ->
           Outcome Exc (IonQResults.Result QPUData SimData Foreign) *
           IonQResults.RngWorld RngState Remote).

#[local] Instance modelled_ionq : Backend :=
  IonQResults.backend QPUData SimData Foreign RngState Remote RandomState
    qpu_counts sample foreign_to_cirq_result service job create wait.

(** C4, amended. When the sampler's seed is an integer, the conversion of a
    simulator result gives the same outcome for the same result, resolver
    and seed, in whatever state the world is: the outcome is that of
    sampling from the generator made from the integer.  When the seed is a
    generator object, the conversion samples from the state that generator
    is in and leaves it in the next state, so that the outcome is the same
    for the same result, resolver and seed only from the same state of the
    generator; likewise for the unset seed and [np.random]. *)
Theorem convert_simulator_result_deterministic_for_int_seed
    (self : positive) (obj obj' : Sampler) (s : SimData)
    (resolver : Resolver) (n : Z) (st st' : State) :
  heap st !! self = Some obj ->
  heap st' !! self = Some obj' ->
  _seed obj = SeedInt n ->
  _seed obj' = SeedInt n ->
  let result := IonQResults.SimulatorResult s in
  (outcome (convert self result resolver st) =
     outcome (convert self result resolver st') /\
   outcome (convert self result resolver st) =
     (sample s resolver (RandomState n)).1) /\
  (forall (g : positive) (state : RngState) (obj_g : Sampler) (st_g : State),
      heap st_g !! self = Some obj_g ->
      _seed obj_g = SeedModule g ->
      IonQResults.generators (world st_g) !! g = Some state ->
      outcome (convert self result resolver st_g) =
        (sample s resolver state).1 /\
      IonQResults.generators (world (final (convert self result resolver st_g)))
        !! g = Some (sample s resolver state).2) /\
  (forall (obj_n : Sampler) (st_n : State),
      heap st_n !! self = Some obj_n ->
      _seed obj_n = SeedNone ->
      outcome (convert self result resolver st_n) =
        (sample s resolver (IonQResults.np_random (world st_n))).1 /\
      IonQResults.np_random (world (final (convert self result resolver st_n))) =
        (sample s resolver (IonQResults.np_random (world st_n))).2).
Proof.
  intros Hobj Hobj' Hseed Hseed' result. split; [|split].
  - rewrite (convert_spec _ _ _ _ _ Hobj), (convert_spec _ _ _ _ _ Hobj').
    unfold seed_kwarg. cbn. rewrite Hseed, Hseed'. cbn. split; reflexivity.
  - intros g state obj_g st_g Hobj_g Hseed_g Hstate.
    rewrite (convert_spec _ _ _ _ _ Hobj_g). unfold seed_kwarg. cbn.
    rewrite Hseed_g. cbn. rewrite Hstate. cbn.
    split; [reflexivity|apply lookup_insert_eq].
  - intros obj_n st_n Hobj_n Hseed_n.
    rewrite (convert_spec _ _ _ _ _ Hobj_n). unfold seed_kwarg. cbn.
    rewrite Hseed_n. cbn. split; reflexivity.
Qed.

End SimulatorSeeds.

(** ** Two runs that differ in the seed *)

Section TwoRuns.
Context `{Backend}.
Context (self : positive).

Implicit Types (st : State) (program : Circuit) (repetitions : Z).

Lemma agree_bind {A B} (m : M A) (k : A -> M B) st1 st2 :
  agree self (m st1) (m st2) ->
  (forall a,
      outcome (m st1) = Returned a ->
      agree self (k a (final (m st1))) (k a (final (m st2)))) ->
  agree self (bind m k st1) (bind m k st2).
Proof.
  intros (Hout & Htr & Hfinal) Hk. unfold bind. rewrite <- Hout.
  destruct (outcome (m st1)) as [a|e].
  - destruct (Hk a eq_refl) as (Hout' & Htr' & Hfinal').
    repeat split; cbn; try congruence; apply Hfinal'.
  - repeat split; cbn; try congruence; apply Hfinal.
Qed.

Lemma agree_silent {A} (o : Outcome Exc A) st1 st2 :
  alike self st1 st2 ->
  agree self {| outcome := o; final := st1; trace := [] |}
    {| outcome := o; final := st2; trace := [] |}.
Proof. intros Halike. repeat split; apply Halike. Qed.

Lemma agree_getattr_service st1 st2 :
  alike self st1 st2 ->
  agree self (getattr self _service st1) (getattr self _service st2).
Proof.
  intros Halike. pose proof Halike as (_ & Hservice & _). unfold getattr.
  destruct (heap st1 !! self), (heap st2 !! self); try discriminate;
    [injection Hservice as ->|]; apply agree_silent, Halike.
Qed.

Lemma agree_getattr_target st1 st2 :
  alike self st1 st2 ->
  agree self (getattr self _target st1) (getattr self _target st2).
Proof.
  intros Halike. pose proof Halike as (_ & _ & Htarget). unfold getattr.
  destruct (heap st1 !! self), (heap st2 !! self); try discriminate;
    [injection Htarget as ->|]; apply agree_silent, Halike.
Qed.

Lemma agree_create service (circuit : Circuit) repetitions target st1 st2 :
  alike self st1 st2 ->
  agree self (call_create_job service circuit repetitions target st1)
    (call_create_job service circuit repetitions target st2).
Proof.
  intros (Hworld & Hservice & Htarget). unfold call_create_job.
  rewrite Hworld. repeat split; assumption.
Qed.

Lemma agree_results job st1 st2 :
  alike self st1 st2 ->
  agree self (call_results job st1) (call_results job st2).
Proof.
  intros (Hworld & Hservice & Htarget). unfold call_results.
  rewrite Hworld. repeat split; assumption.
Qed.

Lemma agree_to_cirq_result result (resolver : Resolver) seed st1 st2 :
  alike self st1 st2 ->
  agree self (call_to_cirq_result result resolver seed st1)
    (call_to_cirq_result result resolver seed st2).
Proof.
  intros (Hworld & Hservice & Htarget). unfold call_to_cirq_result.
  rewrite Hworld. repeat split; assumption.
Qed.

Lemma agree_final {A} (r1 r2 : Run A) :
  agree self r1 r2 -> alike self (final r1) (final r2).
Proof. intros (_ & _ & Hfinal). exact Hfinal. Qed.

Lemma agree_submit program repetitions (resolver : Resolver) st1 st2 :
  alike self st1 st2 ->
  agree self (submit self program repetitions resolver st1)
    (submit self program repetitions resolver st2).
Proof.
  intros Halike. unfold submit.
  apply agree_bind; [apply agree_getattr_service, Halike|].
  intros service _.
  pose proof (agree_final _ _ (agree_getattr_service _ _ Halike)) as Halike1.
  apply agree_bind; [apply agree_silent, Halike1|]. intros circuit _.
  apply agree_bind; [apply agree_getattr_target, Halike1|].
  intros target _.
  apply agree_create.
  apply (agree_final _ _ (agree_getattr_target _ _ Halike1)).
Qed.

Lemma agree_comprehension {A B} (f : A -> M B) xs st1 st2 :
  (forall x st1 st2, alike self st1 st2 -> agree self (f x st1) (f x st2)) ->
  alike self st1 st2 ->
  agree self (comprehension f xs st1) (comprehension f xs st2).
Proof.
  intros Hf. revert st1 st2.
  induction xs as [|x xs IH]; intros st1 st2 Halike; cbn [comprehension].
  - apply agree_silent, Halike.
  - apply agree_bind; [apply Hf, Halike|]. intros y _.
    pose proof (agree_final _ _ (Hf x _ _ Halike)) as Halike1.
    apply agree_bind; [apply IH, Halike1|]. intros ys _.
    apply agree_silent. apply (agree_final _ _ (IH _ _ Halike1)).
Qed.

Lemma agree_convert_loop pairs cirq_results st1 st2 :
  Forall (fun pair => isinstance_QPUResult pair.1 = true) pairs ->
  alike self st1 st2 ->
  agree self (convert_loop self pairs cirq_results st1)
    (convert_loop self pairs cirq_results st2).
Proof.
  intros Hqpu. revert cirq_results st1 st2.
  induction Hqpu as [|[result resolver] pairs Hresult _ IH];
    intros acc st1 st2 Halike; cbn [convert_loop].
  - apply agree_silent, Halike.
  - cbn in Hresult.
    assert (forall st, convert self result resolver st =
                       call_to_cirq_result result resolver None st) as Hc.
    { intros st. unfold convert. rewrite Hresult. reflexivity. }
    apply agree_bind.
    + rewrite !Hc. apply agree_to_cirq_result, Halike.
    + intros c _. apply IH. rewrite !Hc.
      apply (agree_final _ _ (agree_to_cirq_result _ _ _ _ _ Halike)).
Qed.

(** The results a returning retrieval loop gives back are those its log
    shows. *)
Lemma comprehension_results_logged jobs st job_results result :
  outcome (comprehension call_results jobs st) = Returned job_results ->
  result ∈ job_results ->
  exists job,
    EvResults job (Returned result) ∈ trace (comprehension call_results jobs st).
Proof.
  intros Hout Hin.
  pose proof (comprehension_results_Awaited jobs st) as Hwait.
  rewrite Hout in Hwait. apply Awaited_returned in Hwait.
  apply list_elem_of_lookup in Hin as (i & Hi).
  destruct (Forall3_lookup_m _ _ _ _ _ _ Hwait Hi)
    as (job & ev & _ & Hev & ->).
  exists job. apply (list_elem_of_lookup_2 _ i), Hev.
Qed.

(** X1. If every result the first run retrieved is an instance of
    [QPUResult], then a second run, from a store that differs at most in the seed of
    [self], returns or raises the same, logs the same calls and leaves the
    world in the same state. *)
Theorem run_sweep_on_qpu_results_ignores_seed
    service target seed1 seed2 program params repetitions st :
  let st1 := final (Sampler__init__ self service target seed1 st) in
  let st2 := final (Sampler__init__ self service target seed2 st) in
  let run1 := run_sweep self program params repetitions st1 in
  let run2 := run_sweep self program params repetitions st2 in
  forallb retrieved_QPUResult (trace run1) = true ->
  outcome run1 = outcome run2 /\
  trace run1 = trace run2 /\
  world (final run1) = world (final run2).
Proof.
  intros st1 st2 run1 run2 Hall.
  assert (forall job result,
             EvResults job (Returned result) ∈ trace run1 ->
             isinstance_QPUResult result = true) as Hqpu.
  { intros job result Hev. rewrite forallb_forall in Hall.
    apply (Hall (EvResults job (Returned result))).
    apply list_elem_of_In, Hev. }
  clear Hall.
  assert (alike self st1 st2) as Halike.
  { repeat split; cbn; rewrite !lookup_insert_eq; reflexivity. }
  enough (agree self run1 run2) as (Hout & Htr & Hworld & _)
    by (repeat split; assumption).
  unfold run1, run2 in *. clear run1 run2.
  destruct (to_resolvers params) as [resolvers|e] eqn:Hsweep.
  - rewrite !(run_sweep_expanded _ _ _ _ _ _ Hsweep) in *.
    pose proof (agree_comprehension _ resolvers _ _
                  (agree_submit program repetitions) Halike) as Hjobs.
    apply agree_bind; [exact Hjobs|]. intros jobs Hout1.
    rewrite (bind_returned _ _ _ _ Hout1) in Hqpu. cbn [trace] in Hqpu.
    pose proof (agree_comprehension _ jobs _ _ agree_results
                  (agree_final _ _ Hjobs)) as Hresults.
    apply agree_bind; [exact Hresults|]. intros job_results Hout2.
    rewrite (bind_returned _ _ _ _ Hout2) in Hqpu. cbn [trace] in Hqpu.
    apply agree_bind.
    + apply agree_convert_loop; [|apply (agree_final _ _ Hresults)].
      apply Forall_forall. intros [result resolver] Hpair. cbn.
      apply elem_of_zip_l in Hpair.
      destruct (comprehension_results_logged _ _ _ _ Hout2 Hpair)
        as (job & Hev).
      apply (Hqpu job). apply elem_of_app; right. apply elem_of_app; left.
      exact Hev.
    + intros l _. apply agree_silent.
      apply (agree_final (A := list CirqResult)).
      apply agree_convert_loop; [|apply (agree_final _ _ Hresults)].
      apply Forall_forall. intros [result resolver] Hpair. cbn.
      apply elem_of_zip_l in Hpair.
      destruct (comprehension_results_logged _ _ _ _ Hout2 Hpair)
        as (job & Hev).
      apply (Hqpu job). apply elem_of_app; right. apply elem_of_app; left.
      exact Hev.
  - rewrite !(run_sweep_unexpanded _ _ _ _ _ _ Hsweep).
    apply agree_silent, Halike.
Qed.

End TwoRuns.

(** * More about a sweep *)

Section SweepFacts.
Context `{Backend}.

Implicit Types (st : State) (self : positive) (obj : Sampler).
Implicit Types (program : Circuit) (params : Sweepable) (repetitions : Z).
Implicit Types (tr : list Event) (ev : Event) (e : Exc).

(** ** The kinds of calls of the three loops *)

Lemma emits_silent kind {A} (m : M A) :
  (forall st, trace (m st) = []) -> emits kind m.
Proof. intros Hm st. rewrite Hm. constructor. Qed.

Lemma emits_bind kind {A B} (m : M A) (k : A -> M B) :
  emits kind m -> (forall a, emits kind (k a)) -> emits kind (bind m k).
Proof.
  intros Hm Hk st. unfold bind.
  destruct (outcome (m st)) as [a|e]; cbn; [|apply Hm].
  apply Forall_app. split; [apply Hm|apply Hk].
Qed.

Lemma emits_comprehension kind {A B} (f : A -> M B) xs :
  (forall x, emits kind (f x)) -> emits kind (comprehension f xs).
Proof.
  intros Hf. induction xs as [|x xs IH]; cbn [comprehension].
  - apply emits_silent. reflexivity.
  - apply emits_bind; [apply Hf|]. intros y.
    apply emits_bind; [apply IH|]. intros ys.
    apply emits_silent. reflexivity.
Qed.

Lemma emits_getattr kind {A} self (field : Sampler -> A) :
  emits kind (getattr self field).
Proof.
  apply emits_silent. intros st. unfold getattr.
  destruct (heap st !! self); reflexivity.
Qed.

Lemma emits_submit self program repetitions (resolver : Resolver) :
  emits is_create (submit self program repetitions resolver).
Proof.
  unfold submit.
  apply emits_bind; [apply emits_getattr|intros service].
  apply emits_bind; [apply emits_silent; reflexivity|intros circuit].
  apply emits_bind; [apply emits_getattr|intros target].
  intros st. repeat constructor.
Qed.

Lemma emits_results job : emits is_retrieval (call_results job).
Proof. intros st. repeat constructor. Qed.

Lemma emits_convert self result (resolver : Resolver) :
  emits is_conversion (convert self result resolver).
Proof.
  unfold convert. destruct (isinstance_QPUResult result).
  - intros st. repeat constructor.
  - apply emits_bind; [apply emits_getattr|intros seed].
    intros st. repeat constructor.
Qed.

Lemma emits_convert_loop self pairs cirq_results :
  emits is_conversion (convert_loop self pairs cirq_results).
Proof.
  revert cirq_results.
  induction pairs as [|[result resolver] pairs IH]; intros acc;
    cbn [convert_loop].
  - apply emits_silent. reflexivity.
  - apply emits_bind; [apply emits_convert|]. intros c. apply IH.
Qed.

(** ** Failures and phases *)

(** A run either logs nothing or is one of the behaviours of a sweep. *)
Lemma run_sweep_shape self program params repetitions st :
  trace (run_sweep self program params repetitions st) = [] \/
  exists obj resolvers,
    heap st !! self = Some obj /\
    to_resolvers params = Returned resolvers /\
    Swept obj program repetitions resolvers
      (trace (run_sweep self program params repetitions st))
      (outcome (run_sweep self program params repetitions st)).
Proof.
  destruct (heap st !! self) as [obj|] eqn:Hobj.
  - destruct (to_resolvers params) as [resolvers|e] eqn:Hsweep.
    + right. exists obj, resolvers. split; [reflexivity|].
      split; [reflexivity|].
      apply (run_sweep_Swept _ _ _ _ _ _ _ Hobj Hsweep).
    + left. rewrite (run_sweep_unexpanded _ _ _ _ _ _ Hsweep). reflexivity.
  - left. apply run_sweep_no_object, Hobj.
Qed.

Lemma run_sweep_failure_last self program params repetitions st ev e :
  ev ∈ trace (run_sweep self program params repetitions st) ->
  failure ev = Some e ->
  last (trace (run_sweep self program params repetitions st)) = Some ev.
Proof.
  intros Hev Hfail. apply list_elem_of_lookup in Hev as (i & Hi).
  pose proof (stops_run_sweep self program params repetitions st i ev e Hi
                Hfail) as Hlast.
  rewrite last_lookup, <- Hlast. exact Hi.
Qed.

Lemma last_of_kind (kind : Event -> bool) tr ev :
  Forall (fun ev' => kind ev' = true) tr ->
  last tr = Some ev -> kind ev = true.
Proof.
  intros Hall Hlast. rewrite Forall_forall in Hall.
  apply Hall, last_Some_elem_of, Hlast.
Qed.

(** X2. A failure ends the sweep where it stands.  If a call to
    [create_job] raised, the run made nothing but calls to [create_job]: no
    result is awaited, not even of the jobs that were created, and nothing is
    converted.  If a call to [results] raised, the run converted nothing, not
    even the results it had retrieved. *)
Theorem run_sweep_failure_skips_later_phases
    self program params repetitions st ev e :
  let tr := trace (run_sweep self program params repetitions st) in
  ev ∈ tr ->
  failure ev = Some e ->
  (is_create ev = true -> Forall (fun ev' => is_create ev' = true) tr) /\
  (is_retrieval ev = true -> Forall (fun ev' => is_conversion ev' = false) tr).
Proof.
  intros tr Hev Hfail.
  pose proof (run_sweep_failure_last _ _ _ _ _ _ _ Hev Hfail) as Hlast.
  fold tr in Hlast.
  destruct (run_sweep_shape self program params repetitions st)
    as [Hnil|(obj & resolvers & _ & _ & Hswept)].
  { fold tr in Hnil. rewrite Hnil in Hlast. discriminate. }
  fold tr in Hswept.
  destruct (Swept_phases _ _ _ _ _ _ Hswept)
    as (tr1 & tr2 & tr3 & o1 & Htr & Hsub & Htr2 & Htr3 & _ & _).
  pose proof (Submitted_creates _ _ _ _ _ _ Hsub) as Htr1.
  rewrite Htr in Hlast |- *.
  split.
  - intros Hcreate.
    destruct tr3 as [|ev3 tr3] using rev_ind.
    + rewrite app_nil_r in Hlast |- *.
      destruct tr2 as [|ev2 tr2 _] using rev_ind.
      * rewrite app_nil_r. exact Htr1.
      * rewrite app_assoc, last_snoc in Hlast. injection Hlast as ->.
        apply Forall_app in Htr2 as [_ Hev2].
        apply Forall_cons in Hev2 as [Hev2 _].
        destruct ev; discriminate.
    + rewrite !app_assoc, last_snoc in Hlast. injection Hlast as ->.
      apply Forall_app in Htr3 as [_ Hev3].
      apply Forall_cons in Hev3 as [Hev3 _].
      destruct ev; discriminate.
  - intros Hret.
    destruct tr3 as [|ev3 tr3 _] using rev_ind.
    + rewrite app_nil_r. apply Forall_app. split.
      * eapply Forall_impl; [exact Htr1|]. intros [] ?; cbn in *; congruence.
      * eapply Forall_impl; [exact Htr2|]. intros [] ?; cbn in *; congruence.
    + rewrite !app_assoc, last_snoc in Hlast. injection Hlast as ->.
      apply Forall_app in Htr3 as [_ Hev3].
      apply Forall_cons in Hev3 as [Hev3 _].
      destruct ev; discriminate.
Qed.

(** ** Returning *)

Lemma Swept_raised obj program repetitions resolvers tr e :
  Swept obj program repetitions resolvers tr (Raised e) ->
  (exists ev, ev ∈ tr /\ failure ev = Some e) \/
  (exists resolver,
      resolver ∈ resolvers /\ resolve_parameters program resolver = Raised e).
Proof.
  intros Hswept. inversion Hswept as
    [tr' e' Hsub|tr1 jobs tr2 e' Hsub Hwait
    |tr1 jobs tr2 job_results tr3 o Hsub Hwait Hconv]; subst.
  - eapply Submitted_raised, Hsub.
  - left. apply Awaited_raised in Hwait as (ev & Hev & Hfail).
    exists ev. split; [apply elem_of_app; right; exact Hev|exact Hfail].
  - left. apply Converted_raised in Hconv as (ev & Hev & Hfail).
    exists ev. split; [|exact Hfail].
    apply elem_of_app; right. apply elem_of_app; right. exact Hev.
Qed.

Lemma Swept_returned_resolved obj program repetitions resolvers tr l :
  Swept obj program repetitions resolvers tr (Returned l) ->
  Forall (fun resolver =>
            is_Returned (resolve_parameters program resolver) = true)
    resolvers.
Proof.
  intros Hswept. inversion Hswept as
    [| |tr1 jobs tr2 job_results tr3 o Hsub Hwait Hconv]; subst.
  apply Submitted_returned in Hsub. apply Forall_forall.
  intros resolver Hin. apply list_elem_of_lookup in Hin as (i & Hi).
  destruct (Forall3_lookup_l _ _ _ _ _ _ Hsub Hi)
    as (job & ev & _ & _ & circuit & -> & _).
  reflexivity.
Qed.

(** X3. The adapter adds no failure of its own and hides none: for a
    constructed sampler and a sweepable that expands, [run_sweep] returns
    exactly when every call it logged returned and the circuit could be
    resolved with every resolver of the sweep. *)
Theorem run_sweep_returns_iff_collaborators_do
    self obj program params repetitions resolvers st :
  heap st !! self = Some obj ->
  to_resolvers params = Returned resolvers ->
  let run := run_sweep self program params repetitions st in
  is_Returned (outcome run) = true <->
  Forall (fun ev => failure ev = None) (trace run) /\
  Forall (fun resolver =>
            is_Returned (resolve_parameters program resolver) = true)
    resolvers.
Proof.
  intros Hobj Hsweep run.
  pose proof (run_sweep_Swept _ _ program _ repetitions _ st Hobj Hsweep)
    as Hswept.
  fold run in Hswept. split.
  - intros Hret. destruct (outcome run) as [l|e] eqn:Hout; [|discriminate].
    split; [|eapply Swept_returned_resolved, Hswept].
    apply Forall_forall. intros ev Hev.
    destruct (failure ev) as [e|] eqn:Hfail; [|reflexivity].
    pose proof (propagates_run_sweep self program params repetitions st ev e
                  Hev Hfail) as Hraised.
    fold run in Hraised. congruence.
  - intros [Hcalls Hresolved].
    destruct (outcome run) as [l|e] eqn:Hout; [reflexivity|].
    apply Swept_raised in Hswept
      as [(ev & Hev & Hfail)|(resolver & Hin & Hraise)].
    + rewrite Forall_forall in Hcalls. rewrite (Hcalls ev Hev) in Hfail.
      discriminate.
    + rewrite Forall_forall in Hresolved. specialize (Hresolved _ Hin).
      rewrite Hraise in Hresolved. discriminate.
Qed.

(** ** What reaches the service *)

Lemma service_calls_app tr1 tr2 :
  service_calls (tr1 ++ tr2) = service_calls tr1 ++ service_calls tr2.
Proof. apply List.filter_app. Qed.

Lemma service_calls_conversions tr :
  Forall (fun ev => is_conversion ev = true) tr -> service_calls tr = [].
Proof.
  induction 1 as [|ev tr Hev _ IH]; [reflexivity|].
  cbn. rewrite Hev. exact IH.
Qed.

(** X4. The seed never reaches the service: from two stores that are alike
    but for the seed of [self], whatever the results are, [run_sweep] makes
    the same calls to [create_job] and to [results], in the same order, and
    gets the same answers. *)
Theorem run_sweep_service_calls_ignore_seed
    self program params repetitions st1 st2 :
  alike self st1 st2 ->
  service_calls (trace (run_sweep self program params repetitions st1)) =
    service_calls (trace (run_sweep self program params repetitions st2)).
Proof.
  intros Halike.
  destruct (to_resolvers params) as [resolvers|e] eqn:Hsweep;
    [|rewrite !(run_sweep_unexpanded _ _ _ _ _ _ Hsweep); reflexivity].
  rewrite !(run_sweep_expanded _ _ _ _ _ _ Hsweep).
  pose proof (agree_comprehension self _ resolvers _ _
                (agree_submit self program repetitions) Halike)
    as (Hout1 & Htr1 & Halike1).
  destruct (outcome (comprehension (submit self program repetitions)
                       resolvers st1)) as [jobs|e] eqn:Hjobs.
  - rewrite (bind_returned _ _ st1 _ Hjobs).
    rewrite (bind_returned _ _ st2 _ (eq_sym Hout1)). cbn [trace].
    rewrite !service_calls_app, Htr1. f_equal.
    pose proof (agree_comprehension self _ jobs _ _ (agree_results self)
                  Halike1) as (Hout2 & Htr2 & Halike2).
    destruct (outcome (comprehension call_results jobs
                         (final (comprehension
                                   (submit self program repetitions)
                                   resolvers st1))))
      as [job_results|e] eqn:Hresults.
    + rewrite (bind_returned _ _ _ _ Hresults).
      rewrite (bind_returned _ _ _ _ (eq_sym Hout2)). cbn [trace].
      rewrite !service_calls_app, Htr2, !bind_ret.
      rewrite !(service_calls_conversions _ (emits_convert_loop _ _ _ _)).
      reflexivity.
    + rewrite (bind_raised _ _ _ _ Hresults).
      rewrite (bind_raised _ _ _ _ (eq_sym Hout2)). cbn [trace].
      rewrite Htr2. reflexivity.
  - rewrite (bind_raised _ _ st1 _ Hjobs).
    rewrite (bind_raised _ _ st2 _ (eq_sym Hout1)). cbn [trace].
    rewrite Htr1. reflexivity.
Qed.

(** ** Which result is converted with which resolver *)

Lemma Converted_calls obj pairs tr o :
  Converted obj pairs tr o ->
  conversion_calls tr `prefix_of`
    map (fun pair => (pair.1, pair.2, seed_kwarg obj pair.1)) pairs /\
  (is_Returned o = true ->
   conversion_calls tr =
     map (fun pair => (pair.1, pair.2, seed_kwarg obj pair.1)) pairs).
Proof.
  induction 1 as [|result resolver pairs e
                  |result resolver pairs c tr o Hconv [IHpre IHeq]]; cbn.
  - split; [apply prefix_nil|reflexivity].
  - split; [apply prefix_cons, prefix_nil|discriminate].
  - split; [apply prefix_cons, IHpre|].
    intros Hret. f_equal. apply IHeq. destruct o; [reflexivity|discriminate].
Qed.

Lemma Awaited_retrieved jobs tr job_results :
  Awaited jobs tr (Returned job_results) -> retrieved tr = job_results.
Proof.
  intros Hwait. apply Awaited_returned in Hwait.
  induction Hwait as [|job result ev jobs job_results tr -> _ IH];
    [reflexivity|].
  cbn. f_equal. exact IH.
Qed.

Lemma conversion_call_create ev :
  is_create ev = true -> conversion_call ev = None.
Proof. destruct ev; cbn; congruence. Qed.

Lemma conversion_call_retrieval ev :
  is_retrieval ev = true -> conversion_call ev = None.
Proof. destruct ev; cbn; congruence. Qed.

Lemma retrieved_result_create ev :
  is_create ev = true -> retrieved_result ev = None.
Proof. destruct ev; cbn; congruence. Qed.

Lemma retrieved_result_conversion ev :
  is_conversion ev = true -> retrieved_result ev = None.
Proof. destruct ev; cbn; congruence. Qed.

(** X5. In every run, also one that raises, the conversions asked for are
    those of the results retrieved, in order, each with the resolver of its
    own sweep point; [seed] is left out for an instance of [QPUResult] and is
    the sampler's seed for any other result.  In a run that returns, every
    result retrieved is converted. *)
Theorem run_sweep_converts_each_result_with_its_resolver
    self obj program params repetitions resolvers st :
  heap st !! self = Some obj ->
  to_resolvers params = Returned resolvers ->
  let run := run_sweep self program params repetitions st in
  let expected :=
    map (fun pair => (pair.1, pair.2, seed_kwarg obj pair.1))
      (zip (retrieved (trace run)) resolvers) in
  conversion_calls (trace run) `prefix_of` expected /\
  (is_Returned (outcome run) = true ->
   conversion_calls (trace run) = expected /\
   length (conversion_calls (trace run)) = length resolvers).
Proof.
  intros Hobj Hsweep run expected.
  pose proof (run_sweep_Swept _ _ program _ repetitions _ st Hobj Hsweep)
    as Hswept.
  fold run in Hswept. unfold expected. clear expected.
  destruct Hswept as
    [tr e Hsub|tr1 jobs tr2 e Hsub Hwait
    |tr1 jobs tr2 job_results tr3 o Hsub Hwait Hconv].
  - pose proof (Submitted_creates _ _ _ _ _ _ Hsub) as Htr.
    assert (conversion_calls tr = []) as ->.
    { apply omap_none. eapply Forall_impl; [exact Htr|].
      apply conversion_call_create. }
    split; [apply prefix_nil|discriminate].
  - pose proof (Submitted_creates _ _ _ _ _ _ Hsub) as Htr1.
    pose proof (Awaited_retrievals _ _ _ Hwait) as Htr2.
    assert (conversion_calls (tr1 ++ tr2) = []) as ->.
    { apply omap_none, Forall_app. split.
      - eapply Forall_impl; [exact Htr1|]. apply conversion_call_create.
      - eapply Forall_impl; [exact Htr2|]. apply conversion_call_retrieval. }
    split; [apply prefix_nil|discriminate].
  - pose proof (Submitted_creates _ _ _ _ _ _ Hsub) as Htr1.
    pose proof (Awaited_retrievals _ _ _ Hwait) as Htr2.
    pose proof (Converted_conversions _ _ _ _ Hconv) as Htr3.
    assert (conversion_calls (tr1 ++ tr2 ++ tr3) = conversion_calls tr3)
      as ->.
    { unfold conversion_calls. rewrite !omap_app.
      rewrite (omap_none _ tr1), (omap_none _ tr2); [reflexivity| |].
      - eapply Forall_impl; [exact Htr2|]. apply conversion_call_retrieval.
      - eapply Forall_impl; [exact Htr1|]. apply conversion_call_create. }
    assert (retrieved (tr1 ++ tr2 ++ tr3) = job_results) as ->.
    { unfold retrieved. rewrite !omap_app.
      rewrite (omap_none _ tr1), (omap_none _ tr3), app_nil_r;
        [eapply Awaited_retrieved, Hwait| |].
      - eapply Forall_impl; [exact Htr3|]. apply retrieved_result_conversion.
      - eapply Forall_impl; [exact Htr1|]. apply retrieved_result_create. }
    destruct (Converted_calls _ _ _ _ Hconv) as [Hpre Heq].
    split; [exact Hpre|]. intros Hret. rewrite (Heq Hret).
    split; [reflexivity|].
    rewrite length_map, length_zip.
    pose proof (Forall3_length_lm _ _ _ _ (Submitted_returned _ _ _ _ _ _ Hsub)).
    pose proof (Forall3_length_lm _ _ _ _ (Awaited_returned _ _ _ Hwait)).
    lia.
Qed.

(** ** What a sweep reads of the store *)

Lemma agree_getattr_seed self st1 st2 :
  alike self st1 st2 ->
  _seed <$> heap st1 !! self = _seed <$> heap st2 !! self ->
  agree self (getattr self _seed st1) (getattr self _seed st2).
Proof.
  intros Halike Hseed. unfold getattr.
  destruct (heap st1 !! self), (heap st2 !! self); try discriminate;
    [injection Hseed as ->|]; apply agree_silent, Halike.
Qed.

Lemma getattr_final {A} self (field : Sampler -> A) st :
  final (getattr self field st) = st.
Proof. unfold getattr. destruct (heap st !! self); reflexivity. Qed.

Lemma agree_convert self result (resolver : Resolver) st1 st2 :
  alike self st1 st2 ->
  _seed <$> heap st1 !! self = _seed <$> heap st2 !! self ->
  agree self (convert self result resolver st1)
    (convert self result resolver st2).
Proof.
  intros Halike Hseed. unfold convert.
  destruct (isinstance_QPUResult result);
    [apply agree_to_cirq_result, Halike|].
  apply agree_bind; [apply agree_getattr_seed; assumption|].
  intros seed _. rewrite !getattr_final.
  apply agree_to_cirq_result, Halike.
Qed.

Lemma agree_convert_loop_seeded self pairs cirq_results st1 st2 :
  alike self st1 st2 ->
  _seed <$> heap st1 !! self = _seed <$> heap st2 !! self ->
  agree self (convert_loop self pairs cirq_results st1)
    (convert_loop self pairs cirq_results st2).
Proof.
  revert cirq_results st1 st2.
  induction pairs as [|[result resolver] pairs IH];
    intros acc st1 st2 Halike Hseed; cbn [convert_loop].
  - apply agree_silent, Halike.
  - pose proof (agree_convert self result resolver _ _ Halike Hseed) as Hc.
    apply agree_bind; [exact Hc|]. intros c _.
    apply IH; [apply (agree_final _ _ _ Hc)|].
    rewrite !keeps_heap_convert. exact Hseed.
Qed.

(** X6. Of the store, a sweep reads the object [self] and nothing else:
    from two stores with the same object at [self] and the same world
    outside, whatever other objects they hold, [run_sweep] returns or raises
    the same, logs the same calls and leaves the same world. *)
Theorem run_sweep_reads_only_its_sampler
    self program params repetitions st1 st2 :
  heap st1 !! self = heap st2 !! self ->
  world st1 = world st2 ->
  let run1 := run_sweep self program params repetitions st1 in
  let run2 := run_sweep self program params repetitions st2 in
  outcome run1 = outcome run2 /\
  trace run1 = trace run2 /\
  world (final run1) = world (final run2).
Proof.
  intros Hself Hworld run1 run2.
  assert (alike self st1 st2) as Halike
    by (repeat split; [exact Hworld|rewrite Hself; reflexivity..]).
  enough (agree self run1 run2) as (Hout & Htr & Hw & _)
    by (repeat split; assumption).
  unfold run1, run2. clear run1 run2.
  destruct (to_resolvers params) as [resolvers|e] eqn:Hsweep;
    [|rewrite !(run_sweep_unexpanded _ _ _ _ _ _ Hsweep);
      apply agree_silent, Halike].
  rewrite !(run_sweep_expanded _ _ _ _ _ _ Hsweep).
  pose proof (agree_comprehension self _ resolvers _ _
                (agree_submit self program repetitions) Halike) as Hjobs.
  apply agree_bind; [exact Hjobs|]. intros jobs _.
  pose proof (agree_comprehension self _ jobs _ _ (agree_results self)
                (agree_final _ _ _ Hjobs)) as Hresults.
  apply agree_bind; [exact Hresults|]. intros job_results _.
  assert (agree self
            (convert_loop self (zip job_results resolvers) []
               (final (comprehension call_results jobs
                         (final (comprehension
                                   (submit self program repetitions)
                                   resolvers st1)))))
            (convert_loop self (zip job_results resolvers) []
               (final (comprehension call_results jobs
                         (final (comprehension
                                   (submit self program repetitions)
                                   resolvers st2)))))) as Hconv.
  { apply agree_convert_loop_seeded; [apply (agree_final _ _ _ Hresults)|].
    rewrite !(keeps_heap_comprehension _ _ keeps_heap_results).
    rewrite !(keeps_heap_comprehension _ _
                (keeps_heap_submit self program repetitions)).
    rewrite Hself. reflexivity. }
  apply agree_bind; [exact Hconv|]. intros l _.
  apply agree_silent, (agree_final _ _ _ Hconv).
Qed.

(** ** The calls of a run that returns *)

(** X8. A run that returns made three calls for each resolver of the sweep
    and no other: the log has three times as many calls as the sweep has
    resolvers, and the jobs awaited are exactly the jobs created, each once,
    in the order of their creation. *)
Theorem run_sweep_returning_makes_three_calls_per_resolver
    self obj program params repetitions resolvers st :
  heap st !! self = Some obj ->
  to_resolvers params = Returned resolvers ->
  let run := run_sweep self program params repetitions st in
  is_Returned (outcome run) = true ->
  length (trace run) = (3 * length resolvers)%nat /\
  awaited (trace run) = (creations (trace run)).*2 /\
  length (awaited (trace run)) = length resolvers.
Proof.
  intros Hobj Hsweep run Hret.
  pose proof (run_sweep_Swept _ _ program _ repetitions _ st Hobj Hsweep)
    as Hswept.
  fold run in Hswept, Hret.
  destruct Hswept as
    [tr e Hsub|tr1 jobs tr2 e Hsub Hwait
    |tr1 jobs tr2 job_results tr3 o Hsub Hwait Hconv]; try discriminate.
  destruct o as [l|e]; [|discriminate].
  pose proof (Submitted_creates _ _ _ _ _ _ Hsub) as Htr1.
  pose proof (Awaited_retrievals _ _ _ Hwait) as Htr2.
  pose proof (Converted_conversions _ _ _ _ Hconv) as Htr3.
  destruct (Submitted_returned_calls _ _ _ _ _ _ Hsub) as (_ & _ & _ & Hjobs).
  pose proof (Submitted_returned _ _ _ _ _ _ Hsub) as Hsub3.
  pose proof (Awaited_returned _ _ _ Hwait) as Hwait3.
  pose proof (Converted_returned _ _ _ _ Hconv) as Hconv3.
  pose proof (Forall3_length_lm _ _ _ _ Hsub3) as Hlen1.
  pose proof (Forall3_length_lr _ _ _ _ Hsub3) as Hlen1'.
  pose proof (Forall3_length_lm _ _ _ _ Hwait3) as Hlen2.
  pose proof (Forall3_length_lr _ _ _ _ Hwait3) as Hlen2'.
  pose proof (Forall3_length_lr _ _ _ _ Hconv3) as Hlen3.
  rewrite length_zip in Hlen3.
  assert (awaited (tr1 ++ tr2 ++ tr3) = jobs) as Hawaited.
  { unfold awaited. rewrite !omap_app.
    rewrite (omap_none _ tr1), (omap_none _ tr3), app_nil_r.
    - clear -Hwait3. induction Hwait3 as [|job result ev jobs rs tr -> _ IH];
        [reflexivity|]. cbn. f_equal. exact IH.
    - eapply Forall_impl; [exact Htr3|]. apply awaited_job_conversion.
    - eapply Forall_impl; [exact Htr1|]. apply awaited_job_create. }
  assert (creations (tr1 ++ tr2 ++ tr3) = creations tr1) as Hcreations.
  { unfold creations. rewrite !omap_app.
    rewrite (omap_none _ tr2), (omap_none _ tr3), !app_nil_r; [reflexivity| |].
    - eapply Forall_impl; [exact Htr3|]. apply creation_conversion.
    - eapply Forall_impl; [exact Htr2|]. apply creation_retrieval. }
  split; [rewrite !length_app; lia|].
  rewrite Hawaited, Hcreations, Hjobs. split; [reflexivity|lia].
Qed.

(** ** From the constructor to the calls *)

Lemma planned_calls_config obj program repetitions resolvers :
  Forall (fun call => call.1.1.1 = _service obj /\ call.2 = _target obj)
    (planned_calls obj program repetitions resolvers).
Proof.
  induction resolvers as [|resolver resolvers IH]; cbn [planned_calls];
    [constructor|].
  destruct (resolve_parameters program resolver); constructor;
    [split; reflexivity|exact IH].
Qed.

Lemma Converted_seeds obj pairs tr o :
  Converted obj pairs tr o ->
  Forall (fun call => call.2 = seed_kwarg obj call.1.1) (conversion_calls tr).
Proof. induction 1; cbn; repeat constructor; assumption. Qed.

(** The conversions of a sweep are those of its third loop. *)
Lemma Swept_conversion_calls obj program repetitions resolvers tr o :
  Swept obj program repetitions resolvers tr o ->
  exists pairs tr3 o3,
    Converted obj pairs tr3 o3 /\
    conversion_calls tr = conversion_calls tr3.
Proof.
  intros [tr' e Hsub|tr1 jobs tr2 e Hsub Hwait
         |tr1 jobs tr2 job_results tr3 o' Hsub Hwait Hconv].
  - exists [], [], (Returned []). split; [constructor|].
    apply omap_none. eapply Forall_impl; [eapply Submitted_creates, Hsub|].
    apply conversion_call_create.
  - exists [], [], (Returned []). split; [constructor|].
    apply omap_none, Forall_app. split.
    + eapply Forall_impl; [eapply Submitted_creates, Hsub|].
      apply conversion_call_create.
    + eapply Forall_impl; [eapply Awaited_retrievals, Hwait|].
      apply conversion_call_retrieval.
  - exists (zip job_results resolvers), tr3, o'. split; [exact Hconv|].
    unfold conversion_calls. rewrite !omap_app.
    rewrite (omap_none _ tr1), (omap_none _ tr2); [reflexivity| |].
    + eapply Forall_impl; [eapply Awaited_retrievals, Hwait|].
      apply conversion_call_retrieval.
    + eapply Forall_impl; [eapply Submitted_creates, Hsub|].
      apply conversion_call_create.
Qed.

(** X9. A sampler sends what it was constructed with.  After
    [Sampler(service, target, seed)] made the object [self], and whatever
    other sampler was made after it, every call to [create_job] of a sweep
    of [self] carries [service] and [target], and every conversion passes
    [seed] for a result that is no instance of [QPUResult] and no seed for
    one that is. *)
Theorem sampler_sends_what_it_was_constructed_with
    self other service target seed service' target' seed'
    program params repetitions st :
  other <> self ->
  let st1 := final (Sampler__init__ self service target seed st) in
  let st2 := final (Sampler__init__ other service' target' seed' st1) in
  let tr := trace (run_sweep self program params repetitions st2) in
  Forall (fun call => call.1.1.1 = service /\ call.2 = target)
    (create_calls tr) /\
  Forall (fun call =>
            call.2 = if isinstance_QPUResult call.1.1 then None else Some seed)
    (conversion_calls tr).
Proof.
  intros Hother st1 st2 tr.
  set (obj := {| _service := service; _target := target; _seed := seed |}).
  assert (heap st2 !! self = Some obj) as Hobj.
  { cbn. rewrite lookup_insert_ne by exact Hother. apply lookup_insert_eq. }
  destruct (to_resolvers params) as [resolvers|e] eqn:Hsweep.
  - pose proof (run_sweep_Swept _ _ program _ repetitions _ st2 Hobj Hsweep)
      as Hswept.
    fold tr in Hswept. split.
    + destruct (Swept_create_calls _ _ _ _ _ _ Hswept)
        as (tr1 & o1 & Hsub & ->).
      destruct (Submitted_planned _ _ _ _ _ _ Hsub) as [rest Hplan].
      pose proof (planned_calls_config obj program repetitions resolvers)
        as Hall.
      rewrite Hplan in Hall. apply Forall_app in Hall as [Hall _].
      exact Hall.
    + destruct (Swept_conversion_calls _ _ _ _ _ _ Hswept)
        as (pairs & tr3 & o3 & Hconv & ->).
      exact (Converted_seeds _ _ _ _ Hconv).
  - unfold tr. rewrite (run_sweep_unexpanded _ _ _ _ _ _ Hsweep).
    split; constructor.
Qed.

End SweepFacts.

(** * The theorems at work on the test double *)

Import ParamResolution IonQResults Mock.


(** C2 on three sweep points and four repetitions, on the simulator. *)
Lemma run_sweep_creates_one_job_per_resolver_witness :
  let st := store (Some "simulator") (SeedInt 3) None None in
  let obj :=
    {| _service := "key"; _target := Some "simulator"; _seed := SeedInt 3 |} in
  let run := run_sweep 1 program sweep 4 st in
  let calls := create_calls (trace run) in
  heap st !! 1%positive = Some obj /\
  to_resolvers sweep = Returned sweep /\
  calls `prefix_of` planned_calls obj program 4 sweep /\
  (forall i ev e,
      trace run !! i = Some ev -> failure ev = Some e ->
      S i = length (trace run)) /\
  (Forall (fun ev => is_create ev = true -> failure ev = None) (trace run) ->
   Forall (fun resolver =>
             is_Returned (resolve_parameters program resolver) = true)
     sweep ->
   calls = planned_calls obj program 4 sweep /\
   length calls = length sweep) /\
  (is_Returned (outcome run) = true ->
   length calls = length sweep /\
   exists circuits,
     Forall2 (fun resolver circuit =>
                resolve_parameters program resolver = Returned circuit)
       sweep circuits /\
     calls = map (fun circuit => ("key", circuit, 4, Some "simulator")) circuits).
Proof.
  intros st obj run calls.
  assert (heap st !! 1%positive = Some obj) as Hobj by reflexivity.
  assert (to_resolvers sweep = Returned sweep) as Hsweep by reflexivity.
  split; [exact Hobj|]. split; [exact Hsweep|].
  exact (run_sweep_creates_one_job_per_resolver 1%positive obj program sweep 4
           sweep st Hobj Hsweep).
Defined.

(** C2 as stated fails when the service refuses a job: of the three jobs of
    a sweep of three points, [run_sweep] asks for the first and the second,
    the second is refused, and the third is never asked for. *)
Lemma run_sweep_stops_creating_at_refused_job :
  let st := store (Some "simulator") (SeedInt 3) (Some 1%nat) None in
  let run := run_sweep 1 program sweep 4 st in
  to_resolvers sweep = Returned sweep /\
  length sweep = 3%nat /\
  length (create_calls (trace run)) = 2%nat /\
  outcome run = Raised "IonQException".
Proof. intros st run. repeat split. Qed.

(** C5 on a service that refuses the second of three jobs. *)
Lemma run_sweep_propagates_service_errors_witness :
  let st := store (Some "simulator") SeedNone (Some 1%nat) None in
  let run := run_sweep 1 program sweep 4 st in
  let ev :=
    EvCreateJob "key" (resolve program {["t" := 1]}) 4 (Some "simulator")
      (Raised "IonQException") in
  ev ∈ trace run /\
  service_failure ev = Some "IonQException" /\
  outcome run = Raised "IonQException" /\
  is_Returned (outcome run) = false /\
  last (trace run) = Some ev.
Proof.
  intros st run ev.
  assert (ev ∈ trace run) as Hev by (right; left).
  assert (service_failure ev = Some "IonQException") as Hfail by reflexivity.
  split; [exact Hev|]. split; [exact Hfail|].
  exact (run_sweep_propagates_service_errors 1%positive program sweep 4 st ev
           "IonQException" Hev Hfail).
Defined.

(** C9 on the sweep of no point. *)
Lemma run_sweep_of_empty_sweep_witness :
  let st := store (Some "qpu") SeedNone None None in
  to_resolvers ([] : list resolver) = Returned [] /\
  run_sweep 1 program [] 4 st =
    {| outcome := Returned []; final := st; trace := [] |}.
Proof.
  intros st.
  assert (to_resolvers ([] : list resolver) = Returned []) as Hsweep
    by reflexivity.
  split; [exact Hsweep|].
  exact (run_sweep_of_empty_sweep 1%positive program [] 4 st Hsweep).
Defined.

(** C10 on a bare list of shots, which is neither a QPU result nor a
    simulator result. *)
Lemma convert_dispatch_is_catch_all_witness :
  let st := store (Some "shots") (SeedInt 3) None None in
  let obj :=
    {| _service := "key"; _target := Some "shots"; _seed := SeedInt 3 |} in
  let result : MockResult := ForeignResult [0; 0] in
  heap st !! 1%positive = Some obj /\
  isinstance_QPUResult result = false /\
  convert 1 result ∅ st =
    {| outcome := Returned {| at_params := ∅; shots := [0; 0] |};
       final := st;
       trace :=
         [EvToCirqResult result ∅ (Some (SeedInt 3))
            (Returned {| at_params := ∅; shots := [0; 0] |})] |}.
Proof.
  intros st obj result.
  assert (heap st !! 1%positive = Some obj) as Hobj by reflexivity.
  assert (isinstance_QPUResult result = false) as Hother by reflexivity.
  split; [exact Hobj|]. split; [exact Hother|].
  exact (convert_dispatch_is_catch_all 1%positive obj result ∅ st Hobj Hother).
Defined.

(** C3 on a QPU result and the seeds 3 and [None]. *)
Lemma convert_qpu_result_ignores_seed_witness :
  let st := {| heap := ∅; world := world0 None None |} in
  let result : MockResult := QPUResult [1; 1] in
  let st1 := final (Sampler__init__ 1 "key" (Some "qpu") (SeedInt 3) st) in
  let st2 := final (Sampler__init__ 1 "key" (Some "qpu") SeedNone st) in
  isinstance_QPUResult result = true /\
  outcome (convert 1 result ∅ st1) = outcome (convert 1 result ∅ st2) /\
  trace (convert 1 result ∅ st1) = trace (convert 1 result ∅ st2) /\
  world (final (convert 1 result ∅ st1)) =
    world (final (convert 1 result ∅ st2)).
Proof.
  intros st result st1 st2.
  assert (isinstance_QPUResult result = true) as Hqpu by reflexivity.
  split; [exact Hqpu|].
  exact (convert_qpu_result_ignores_seed 1%positive "key" (Some "qpu")
           (SeedInt 3) SeedNone result ∅ st Hqpu).
Defined.

(** C7 on the sweep of the one empty resolver. *)
Lemma run_sweep_submits_program_for_empty_resolver_witness :
  let st := store (Some "qpu") SeedNone None None in
  let obj := {| _service := "key"; _target := Some "qpu"; _seed := SeedNone |} in
  heap st !! 1%positive = Some obj /\
  to_resolvers [∅ : resolver] = Returned [∅] /\
  create_calls (trace (run_sweep 1 program [∅] 4 st)) =
    [("key", program, 4, Some "qpu")].
Proof.
  intros st obj.
  assert (heap st !! 1%positive = Some obj) as Hobj by reflexivity.
  assert (to_resolvers [∅ : resolver] = Returned [∅]) as Hsweep by reflexivity.
  split; [exact Hobj|]. split; [exact Hsweep|].
  exact (run_sweep_submits_program_for_empty_resolver (list resolver) Measured
           string "AttributeError" Returned 1%positive obj program [∅] 4 st
           Hobj Hsweep).
Defined.

(** C4 on a simulator result of four shots and the seed 3, before and
    after a first conversion. *)
Lemma convert_simulator_result_deterministic_for_int_seed_witness :
  let st := store (Some "simulator") (SeedInt 3) None None in
  let obj :=
    {| _service := "key"; _target := Some "simulator"; _seed := SeedInt 3 |} in
  let d := {| support := [0; 1]; repetitions := 4 |} in
  let result : MockResult := SimulatorResult d in
  let st' := final (convert 1 result ∅ st) in
  heap st !! 1%positive = Some obj /\
  heap st' !! 1%positive = Some obj /\
  _seed obj = SeedInt 3 /\
  (outcome (convert 1 result ∅ st) = outcome (convert 1 result ∅ st') /\
   outcome (convert 1 result ∅ st) = (sample d ∅ 3).1) /\
  (forall (g : positive) (state : Z) (obj_g : Sampler) (st_g : State),
      heap st_g !! 1%positive = Some obj_g ->
      _seed obj_g = SeedModule g ->
      generators (world st_g) !! g = Some state ->
      outcome (convert 1 result ∅ st_g) = (sample d ∅ state).1 /\
      generators (world (final (convert 1 result ∅ st_g))) !! g =
        Some (sample d ∅ state).2) /\
  (forall (obj_n : Sampler) (st_n : State),
      heap st_n !! 1%positive = Some obj_n ->
      _seed obj_n = SeedNone ->
      outcome (convert 1 result ∅ st_n) =
        (sample d ∅ (np_random (world st_n))).1 /\
      np_random (world (final (convert 1 result ∅ st_n))) =
        (sample d ∅ (np_random (world st_n))).2).
Proof.
  intros st obj d result st'.
  assert (heap st !! 1%positive = Some obj) as Hobj by reflexivity.
  assert (heap st' !! 1%positive = Some obj) as Hobj' by reflexivity.
  assert (_seed obj = SeedInt 3) as Hseed by reflexivity.
  split; [exact Hobj|]. split; [exact Hobj'|]. split; [exact Hseed|].
  exact (convert_simulator_result_deterministic_for_int_seed
           (list Z) Distribution (list Z) Z Remote (fun n => n mod 2147483648)
           qpu_counts sample shots_to_cirq_result string nat create wait
           1%positive obj obj d ∅ 3 st st' Hobj Hobj' Hseed Hseed).
Defined.

(** C4 as stated fails when the configured seed is a generator object: the
    first conversion leaves the generator in its next state, and the second
    conversion of the same result with the same resolver and the same seed
    draws other outcomes. *)
Lemma convert_simulator_result_differs_with_generator_seed :
  let st := store (Some "simulator") (SeedModule 7) None None in
  let result : MockResult :=
    SimulatorResult {| support := [0; 1]; repetitions := 4 |} in
  let first := convert 1 result ∅ st in
  let second := convert 1 result ∅ (final first) in
  heap (final first) !! 1%positive = heap st !! 1%positive /\
  _seed <$> heap st !! 1%positive = Some (SeedModule 7) /\
  drawn (outcome first) = Some [1; 1; 0; 1] /\
  drawn (outcome second) = Some [1; 0; 0; 1] /\
  bool_decide (drawn (outcome first) = drawn (outcome second)) = false.
Proof.
  intros st result first second.
  split; [reflexivity|]. split; [reflexivity|].
  split; [vm_compute; reflexivity|].
  split; [vm_compute; reflexivity|]. reflexivity.
Qed.


(** A sweep on the target [qpu], run with the seed 3 and with no seed. *)
Lemma run_sweep_on_qpu_results_ignores_seed_witness :
  let st := {| heap := ∅; world := world0 None None |} in
  let st1 := final (Sampler__init__ 1 "key" (Some "qpu") (SeedInt 3) st) in
  let st2 := final (Sampler__init__ 1 "key" (Some "qpu") SeedNone st) in
  let run1 := run_sweep 1 program sweep 4 st1 in
  let run2 := run_sweep 1 program sweep 4 st2 in
  forallb retrieved_QPUResult (trace run1) = true /\
  outcome run1 = outcome run2 /\
  trace run1 = trace run2 /\
  world (final run1) = world (final run2).
Proof.
  intros st st1 st2 run1 run2.
  assert (forallb retrieved_QPUResult (trace run1) = true) as Hqpu
    by reflexivity.
  split; [exact Hqpu|].
  exact (run_sweep_on_qpu_results_ignores_seed 1%positive "key" (Some "qpu")
           (SeedInt 3) SeedNone program sweep 4 st Hqpu).
Defined.

(** X2 on a service that refuses the second of three jobs: the two calls
    made are calls to [create_job]. *)
Lemma run_sweep_failure_skips_later_phases_witness :
  let st := store (Some "simulator") SeedNone (Some 1%nat) None in
  let tr := trace (run_sweep 1 program sweep 4 st) in
  let ev :=
    EvCreateJob "key" (resolve program {["t" := 1]}) 4 (Some "simulator")
      (Raised "IonQException") in
  ev ∈ tr /\
  failure ev = Some "IonQException" /\
  (is_create ev = true -> Forall (fun ev' => is_create ev' = true) tr) /\
  (is_retrieval ev = true -> Forall (fun ev' => is_conversion ev' = false) tr).
Proof.
  intros st tr ev.
  assert (ev ∈ tr) as Hev by (right; left).
  assert (failure ev = Some "IonQException") as Hfail by reflexivity.
  split; [exact Hev|]. split; [exact Hfail|].
  exact (run_sweep_failure_skips_later_phases 1%positive program sweep 4 st ev
           "IonQException" Hev Hfail).
Defined.

(** X3 on three sweep points on the target [qpu]. *)
Lemma run_sweep_returns_iff_collaborators_do_witness :
  let st := store (Some "qpu") SeedNone None None in
  let obj := {| _service := "key"; _target := Some "qpu"; _seed := SeedNone |} in
  let run := run_sweep 1 program sweep 4 st in
  heap st !! 1%positive = Some obj /\
  to_resolvers sweep = Returned sweep /\
  (is_Returned (outcome run) = true <->
   Forall (fun ev => failure ev = None) (trace run) /\
   Forall (fun resolver =>
             is_Returned (resolve_parameters program resolver) = true)
     sweep).
Proof.
  intros st obj run.
  assert (heap st !! 1%positive = Some obj) as Hobj by reflexivity.
  assert (to_resolvers sweep = Returned sweep) as Hsweep by reflexivity.
  split; [exact Hobj|]. split; [exact Hsweep|].
  exact (run_sweep_returns_iff_collaborators_do 1%positive obj program sweep 4
           sweep st Hobj Hsweep).
Defined.

(** X4 on the simulator, with the seed 3 and with no seed. *)
Lemma run_sweep_service_calls_ignore_seed_witness :
  let st := {| heap := ∅; world := world0 None None |} in
  let st1 := final (Sampler__init__ 1 "key" (Some "simulator") (SeedInt 3) st) in
  let st2 := final (Sampler__init__ 1 "key" (Some "simulator") SeedNone st) in
  alike 1 st1 st2 /\
  service_calls (trace (run_sweep 1 program sweep 4 st1)) =
    service_calls (trace (run_sweep 1 program sweep 4 st2)).
Proof.
  intros st st1 st2.
  assert (alike 1 st1 st2) as Halike by (repeat split).
  split; [exact Halike|].
  exact (run_sweep_service_calls_ignore_seed 1%positive program sweep 4 st1 st2
           Halike).
Defined.

(** X5 on three sweep points on the simulator, with the seed 3. *)
Lemma run_sweep_converts_each_result_with_its_resolver_witness :
  let st := store (Some "simulator") (SeedInt 3) None None in
  let obj :=
    {| _service := "key"; _target := Some "simulator"; _seed := SeedInt 3 |} in
  let run := run_sweep 1 program sweep 4 st in
  let expected :=
    map (fun pair => (pair.1, pair.2, seed_kwarg obj pair.1))
      (zip (retrieved (trace run)) sweep) in
  heap st !! 1%positive = Some obj /\
  to_resolvers sweep = Returned sweep /\
  conversion_calls (trace run) `prefix_of` expected /\
  (is_Returned (outcome run) = true ->
   conversion_calls (trace run) = expected /\
   length (conversion_calls (trace run)) = length sweep).
Proof.
  intros st obj run expected.
  assert (heap st !! 1%positive = Some obj) as Hobj by reflexivity.
  assert (to_resolvers sweep = Returned sweep) as Hsweep by reflexivity.
  split; [exact Hobj|]. split; [exact Hsweep|].
  exact (run_sweep_converts_each_result_with_its_resolver 1%positive obj
           program sweep 4 sweep st Hobj Hsweep).
Defined.

(** X6 on a store and the same store after a second sampler was made. *)
Lemma run_sweep_reads_only_its_sampler_witness :
  let st1 := store (Some "simulator") SeedNone None None in
  let st2 := final (Sampler__init__ 2 "other" (Some "qpu") (SeedInt 3) st1) in
  let run1 := run_sweep 1 program sweep 4 st1 in
  let run2 := run_sweep 1 program sweep 4 st2 in
  heap st1 !! 1%positive = heap st2 !! 1%positive /\
  world st1 = world st2 /\
  outcome run1 = outcome run2 /\
  trace run1 = trace run2 /\
  world (final run1) = world (final run2).
Proof.
  intros st1 st2 run1 run2.
  assert (heap st1 !! 1%positive = heap st2 !! 1%positive) as Hself
    by reflexivity.
  assert (world st1 = world st2) as Hworld by reflexivity.
  split; [exact Hself|]. split; [exact Hworld|].
  exact (run_sweep_reads_only_its_sampler 1%positive program sweep 4 st1 st2
           Hself Hworld).
Defined.

(** X8 on three sweep points on the target [qpu]. *)
Lemma run_sweep_returning_makes_three_calls_per_resolver_witness :
  let st := store (Some "qpu") SeedNone None None in
  let obj := {| _service := "key"; _target := Some "qpu"; _seed := SeedNone |} in
  let run := run_sweep 1 program sweep 4 st in
  heap st !! 1%positive = Some obj /\
  to_resolvers sweep = Returned sweep /\
  is_Returned (outcome run) = true /\
  length (trace run) = (3 * length sweep)%nat /\
  awaited (trace run) = (creations (trace run)).*2 /\
  length (awaited (trace run)) = length sweep.
Proof.
  intros st obj run.
  assert (heap st !! 1%positive = Some obj) as Hobj by reflexivity.
  assert (to_resolvers sweep = Returned sweep) as Hsweep by reflexivity.
  assert (is_Returned (outcome run) = true) as Hret by reflexivity.
  split; [exact Hobj|]. split; [exact Hsweep|]. split; [exact Hret|].
  exact (run_sweep_returning_makes_three_calls_per_resolver 1%positive obj
           program sweep 4 sweep st Hobj Hsweep Hret).
Defined.

(** X9 on a sampler for the simulator with the seed 3, and a second
    sampler made after it. *)
Lemma sampler_sends_what_it_was_constructed_with_witness :
  let st := {| heap := ∅; world := world0 None None |} in
  let st1 := final (Sampler__init__ 1 "key" (Some "simulator") (SeedInt 3) st) in
  let st2 := final (Sampler__init__ 2 "other" (Some "qpu") SeedNone st1) in
  let tr := trace (run_sweep 1 program sweep 4 st2) in
  2%positive <> 1%positive /\
  Forall (fun call => call.1.1.1 = "key" /\ call.2 = Some "simulator")
    (create_calls tr) /\
  Forall (fun call =>
            call.2 =
              if isinstance_QPUResult call.1.1 then None else Some (SeedInt 3))
    (conversion_calls tr).
Proof.
  intros st st1 st2 tr.
  assert (2%positive <> 1%positive) as Hother by discriminate.
  split; [exact Hother|].
  exact (sampler_sends_what_it_was_constructed_with 1%positive 2%positive
           "key" (Some "simulator") (SeedInt 3) "other" (Some "qpu") SeedNone
           program sweep 4 st Hother).
Defined.
